(** * SocialHub queue manager: a shallow embedding of
      [backend/src/services/queue_manager.py] and the properties of its
      job lifecycle, ordering, retry and rate-limiting logic.

    Conventions of the model.

    - Time.  The wall clock is a [Z] counting microseconds since the epoch.
      Every operation receives the clock reading [now] of the call; the clock
      does not advance while one call runs, so [datetime.utcnow()] and
      [time.time()] inside one call both read [now].  [int(time.time())] is
      [int_time now], whole seconds.  A [datetime] is naive or carries a UTC
      offset; comparing one of each raises [TypeError], as in Python.
      Arithmetic on datetimes is exact: the range of years of the library
      type is not modelled.
    - Exceptions.  A call that can raise returns an [outcome]; a call that
      also writes to Redis returns the outcome together with the store as
      the writes made before the exception left it.
    - Scores.  A Redis sorted-set score is a double.  Every score the code
      writes is either a whole number of seconds or a timestamp with
      microsecond resolution; a score [x] is represented by the integer
      [x * 10^6].
    - Storage.  The Redis hash [jobs] holds the JSON text of
      [QueueJob.to_dict]; [from_dict] reads back the same record, so the
      model stores the record itself.
    - Numbers.  A Python [float] is an IEEE 754 binary64 value, a
      [spec_float] of the standard library with [prec = 53] and
      [emax = 1024]; products are rounded to nearest, ties to even.
    - Randomness.  The sample of [random.uniform(0.75, 1.25)] is an explicit
      argument [jitter], a double. *)

From Stdlib Require Import ZArith QArith Qround Qminmax Qpower Lqa Lia.
From Stdlib Require Import String Ascii.
From Stdlib Require Import OrderedTypeEx.
From Stdlib Require Import SpecFloat.
From stdpp Require Import base gmap strings list sorting pretty.

Local Close Scope Q_scope.
Local Open Scope string_scope.
Local Open Scope Z_scope.

(** ** Enumerations *)

Inductive JobStatus :=
  | PENDING | QUEUED | PROCESSING | COMPLETED | FAILED | CANCELLED | RETRYING.

Inductive JobPriority := LOW | NORMAL | HIGH | URGENT.

#[global] Instance JobStatus_eq_dec : EqDecision JobStatus.
Proof. solve_decision. Defined.

#[global] Instance JobPriority_eq_dec : EqDecision JobPriority.
Proof. solve_decision. Defined.

(** [JobPriority.value] *)
Definition priority_value (p : JobPriority) : Z :=
  match p with LOW => 1 | NORMAL => 2 | HIGH => 3 | URGENT => 4 end.

(** The statuses listed in [cancel_job]'s guard. *)
Definition terminal (s : JobStatus) : bool :=
  match s with COMPLETED | FAILED | CANCELLED => true | _ => false end.

(** ** Python values carried in a payload *)

Inductive pyval :=
  | PNone
  | PBool (b : bool)
  | PInt (z : Z)
  | PStr (s : string).

#[global] Instance pyval_eq_dec : EqDecision pyval.
Proof. solve_decision. Defined.

(** Python truthiness, as tested by [if x:] and [x and y]. *)
Definition truthy (v : pyval) : bool :=
  match v with
  | PNone => false
  | PBool b => b
  | PInt z => negb (z =? 0)
  | PStr s => negb (String.eqb s "")
  end.

(** [str(v)] *)
Definition py_str (v : pyval) : string :=
  match v with
  | PNone => "None"
  | PBool true => "True"
  | PBool false => "False"
  | PInt z => pretty z
  | PStr s => s
  end.

Abbreviation payload_t := (gmap string pyval).

(** [payload.get(k)]: a missing key reads as [None]. *)
Definition payload_get (k : string) (p : payload_t) : pyval :=
  default PNone (p !! k).

(** ** Exceptions

    The exceptions that escape the functions modelled here, and the result
    of a call that may raise one. *)

Inductive exn := TypeError | OverflowError | ValueError.

Inductive outcome (A : Type) :=
  | Returns (a : A)
  | Raises (e : exn).

Arguments Returns {A} a.
Arguments Raises {A} e.

#[global] Instance outcome_ret : MRet outcome := λ A a, Returns a.

#[global] Instance outcome_bind : MBind outcome :=
  λ A B f m, match m with Returns a => f a | Raises e => Raises e end.

(** ** Clock and scores *)

(** A [datetime.datetime]: naive ([tzinfo] is [None]), or aware with a
    fixed offset from UTC, as [fromisoformat] builds them.  [wall] counts
    the microseconds of the date and time fields. *)
Inductive datetime :=
  | Naive (wall : Z)
  | Aware (wall : Z) (utcoffset : Z).

(** [datetime.utcnow()]: a naive datetime. *)
Definition utcnow (now : Z) : datetime := Naive now.

(** [d + timedelta(microseconds=delta)] *)
Definition dt_add (d : datetime) (delta : Z) : datetime :=
  match d with
  | Naive wall => Naive (wall + delta)
  | Aware wall utcoffset => Aware (wall + delta) utcoffset
  end.

(** [a <= b]: naive datetimes compare by their fields, aware ones by
    their instants; one of each cannot be compared. *)
Definition dt_le (a b : datetime) : outcome bool :=
  match a, b with
  | Naive x, Naive y => Returns (x <=? y)
  | Aware x ox, Aware y oy => Returns (x - ox <=? y - oy)
  | _, _ => Raises TypeError
  end.

Definition usec : Z := 1000000.

(** Whole seconds [z] as a score or a duration. *)
Definition secs (z : Z) : Z := z * usec.

(** [int(time.time())] when the clock reads [now]. *)
Definition int_time (now : Z) : Z := Z.quot now usec.

(** ** Redis sorted sets *)

Abbreviation zset := (gmap string Z).

(** Redis orders a sorted set by score, and members of equal score by the
    bytes of the member. *)
Definition zle (a b : string * Z) : Prop :=
  a.2 < b.2 ∨ (a.2 = b.2 ∧ String.leb a.1 b.1 = true).

#[global] Instance zle_dec : RelDecision zle.
Proof. intros a b. unfold zle. apply _. Defined.

(** [ZRANGE key 0 -1 WITHSCORES] *)
Definition zrange (m : zset) : list (string * Z) :=
  merge_sort zle (map_to_list m).

Definition zadd (member : string) (sc : Z) (m : zset) : zset :=
  <[member := sc]> m.

Definition zrem (member : string) (m : zset) : zset := delete member m.

Definition in_range (lo hi : Z) (p : string * Z) : bool :=
  (lo <=? p.2) && (p.2 <=? hi).

(** [ZRANGEBYSCORE key lo hi]: members only, in set order. *)
Definition zrangebyscore (lo hi : Z) (m : zset) : list string :=
  (List.filter (in_range lo hi) (zrange m)).*1.

(** [ZREMRANGEBYSCORE key lo hi] *)
Definition zremrangebyscore (lo hi : Z) (m : zset) : zset :=
  filter (λ p, in_range lo hi p = false) m.

(** [ZPOPMAX key]: the last element of the set order, removed. *)
Definition zpopmax (m : zset) : option (string * Z) * zset :=
  match last (zrange m) with
  | None => (None, m)
  | Some (k, sc) => (Some (k, sc), delete k m)
  end.

(** ** Redis string keys with expiry: the rate-limit counters

    A counter holds its integer value and the absolute expiry time in
    milliseconds, if any.  Redis keeps time in milliseconds and reports
    [TTL] in seconds, rounded to the nearest second. *)

Abbreviation counters_t := (gmap string (Z * option Z)).

Definition now_ms (now : Z) : Z := now `div` 1000.

Definition expired (now : Z) (e : option Z) : bool :=
  match e with
  | Some t => t <? now_ms now
  | None => false
  end.

(** [GET key]: [None] when the key is missing or has expired. *)
Definition redis_get (now : Z) (key : string) (c : counters_t) : option Z :=
  match c !! key with
  | Some (v, e) => if expired now e then None else Some v
  | None => None
  end.

(** [SETEX key seconds value] *)
Definition redis_setex (now : Z) (key : string) (seconds v : Z)
    (c : counters_t) : counters_t :=
  <[key := (v, Some (now_ms now + seconds * 1000))]> c.

(** [INCR key]: keeps the expiry of a live key; a missing or expired key
    restarts at 1 with no expiry. *)
Definition redis_incr (now : Z) (key : string) (c : counters_t) : counters_t :=
  match c !! key with
  | Some (v, e) =>
      if expired now e then <[key := (1, None)]> c else <[key := (v + 1, e)]> c
  | None => <[key := (1, None)]> c
  end.

(** [TTL key]: -2 for a missing key, -1 for a key without expiry. *)
Definition redis_ttl (now : Z) (key : string) (c : counters_t) : Z :=
  match c !! key with
  | Some (v, e) =>
      if expired now e then -2
      else match e with
           | None => -1
           | Some t => (t - now_ms now + 500) `div` 1000
           end
  | None => -2
  end.

(** ** RateLimiter *)

Record limit_config := { requests : Z; window : Z }.

(** [RateLimiter.limits] *)
Definition limits : gmap string limit_config :=
  <["twitter" := {| requests := 300; window := 900 |}]>
  (<["instagram" := {| requests := 200; window := 3600 |}]>
  (<["facebook" := {| requests := 600; window := 3600 |}]>
  (<["linkedin" := {| requests := 100; window := 3600 |}]> ∅))).

(** [self.limits[platform]], [None] when [platform not in self.limits].
    The keys of [limits] are strings, so only a string can be found. *)
Definition limits_get (platform : pyval) : option limit_config :=
  match platform with
  | PStr s => limits !! s
  | _ => None
  end.

(** [f"rate_limit:{platform}:{user_id}"] *)
Definition rate_limit_key (platform : pyval) (user_id : string) : string :=
  "rate_limit:" +:+ py_str platform +:+ ":" +:+ user_id.

(** [RateLimiter.is_allowed]: the answer and the counters afterwards. *)
Definition is_allowed (platform : pyval) (user_id : string) (now : Z)
    (c : counters_t) : bool * counters_t :=
  match limits_get platform with
  | None => (true, c)
  | Some limit_config =>
      let key := rate_limit_key platform user_id in
      match redis_get now key c with
      | None => (true, redis_setex now key (window limit_config) 1 c)
      | Some current_count =>
          if requests limit_config <=? current_count then (false, c)
          else (true, redis_incr now key c)
      end
  end.

(** [RateLimiter.get_reset_time] *)
Definition get_reset_time (platform : pyval) (user_id : string) (now : Z)
    (c : counters_t) : option datetime :=
  match limits_get platform with
  | None => None
  | Some _ =>
      let key := rate_limit_key platform user_id in
      let ttl := redis_ttl now key c in
      if 0 <? ttl then Some (dt_add (utcnow now) (secs ttl)) else None
  end.

(** ** QueueJob *)

Record QueueJob := mkQueueJob {
  id : string;
  job_type : string;
  payload : payload_t;
  priority : JobPriority;
  status : JobStatus;
  created_at : datetime;
  scheduled_at : datetime;
  started_at : option datetime;
  completed_at : option datetime;
  retry_count : Z;
  max_retries : Z;
  retry_delay : Z;
  idempotency_key : string;
  error_message : option string;
  result : option payload_t
}.

Definition set_status (v : JobStatus) (j : QueueJob) : QueueJob :=
  mkQueueJob (id j) (job_type j) (payload j) (priority j) v (created_at j)
    (scheduled_at j) (started_at j) (completed_at j) (retry_count j)
    (max_retries j) (retry_delay j) (idempotency_key j) (error_message j)
    (result j).

Definition set_scheduled_at (v : datetime) (j : QueueJob) : QueueJob :=
  mkQueueJob (id j) (job_type j) (payload j) (priority j) (status j)
    (created_at j) v (started_at j) (completed_at j) (retry_count j)
    (max_retries j) (retry_delay j) (idempotency_key j) (error_message j)
    (result j).

Definition set_started_at (v : option datetime) (j : QueueJob) : QueueJob :=
  mkQueueJob (id j) (job_type j) (payload j) (priority j) (status j)
    (created_at j) (scheduled_at j) v (completed_at j) (retry_count j)
    (max_retries j) (retry_delay j) (idempotency_key j) (error_message j)
    (result j).

Definition set_completed_at (v : option datetime) (j : QueueJob) : QueueJob :=
  mkQueueJob (id j) (job_type j) (payload j) (priority j) (status j)
    (created_at j) (scheduled_at j) (started_at j) v (retry_count j)
    (max_retries j) (retry_delay j) (idempotency_key j) (error_message j)
    (result j).

Definition set_retry_count (v : Z) (j : QueueJob) : QueueJob :=
  mkQueueJob (id j) (job_type j) (payload j) (priority j) (status j)
    (created_at j) (scheduled_at j) (started_at j) (completed_at j) v
    (max_retries j) (retry_delay j) (idempotency_key j) (error_message j)
    (result j).

Definition set_error_message (v : option string) (j : QueueJob) : QueueJob :=
  mkQueueJob (id j) (job_type j) (payload j) (priority j) (status j)
    (created_at j) (scheduled_at j) (started_at j) (completed_at j)
    (retry_count j) (max_retries j) (retry_delay j) (idempotency_key j) v
    (result j).

Definition set_result (v : option payload_t) (j : QueueJob) : QueueJob :=
  mkQueueJob (id j) (job_type j) (payload j) (priority j) (status j)
    (created_at j) (scheduled_at j) (started_at j) (completed_at j)
    (retry_count j) (max_retries j) (retry_delay j) (idempotency_key j)
    (error_message j) v.

(** *** Construction: the dataclass [__init__] followed by [__post_init__] *)

Section Fingerprint.

(** [json.dumps(payload, sort_keys=True)] and
    [hashlib.sha256(s.encode()).hexdigest()] are library functions. *)
Variable json_dumps_sorted : payload_t → string.
Variable sha256_hexdigest : string → string.

(** [QueueJob._generate_idempotency_key] *)
Definition _generate_idempotency_key (job_type : string)
    (payload : payload_t) : string :=
  let content := job_type +:+ ":" +:+ json_dumps_sorted payload in
  String.substring 0 16 (sha256_hexdigest content).

(** [QueueJob(...)] built when the clock reads [now].  The three optional
    arguments are those that [__post_init__] fills in when they are
    [None]. *)
Definition QueueJob_init (now : Z) (id job_type : string)
    (payload : payload_t) (priority : JobPriority) (status : JobStatus)
    (created_at scheduled_at : option datetime)
    (started_at completed_at : option datetime)
    (retry_count max_retries retry_delay : Z)
    (idempotency_key : option string) (error_message : option string)
    (result : option payload_t) : QueueJob :=
  mkQueueJob id job_type payload priority status
    (default (utcnow now) created_at) (default (utcnow now) scheduled_at)
    started_at completed_at retry_count max_retries retry_delay
    (default (_generate_idempotency_key job_type payload) idempotency_key)
    error_message result.

(** [QueueJob(id=..., job_type=..., payload=...)] with every default. *)
Definition QueueJob_default (now : Z) (id job_type : string)
    (payload : payload_t) (priority : JobPriority)
    (scheduled_at : option datetime) : QueueJob :=
  QueueJob_init now id job_type payload priority PENDING None scheduled_at
    None None 0 3 60 None None None.

(** *** Job creation helpers.  The id is the text of a fresh
    [uuid.uuid4()], an argument here; [scheduled_time or
    datetime.utcnow()] is the given time when there is one (a datetime is
    never false). *)

(** [create_post_job] *)
Definition create_post_job (now : Z) (job_id : string)
    (unified_post_id : Z) (platform : string) (user_id : Z)
    (scheduled_time : option datetime) (priority : JobPriority) : QueueJob :=
  QueueJob_default now job_id "social_media_post"
    (<["unified_post_id" := PInt unified_post_id]>
     (<["platform" := PStr platform]>
      (<["user_id" := PInt user_id]> ∅)))
    priority (Some (default (utcnow now) scheduled_time)).

(** [create_analytics_job] *)
Definition create_analytics_job (now : Z) (job_id : string)
    (user_id : Z) (platform : string) (scheduled_time : option datetime)
    : QueueJob :=
  QueueJob_default now job_id "analytics_sync"
    (<["user_id" := PInt user_id]> (<["platform" := PStr platform]> ∅))
    LOW (Some (default (utcnow now) scheduled_time)).

(** [create_media_upload_job] *)
Definition create_media_upload_job (now : Z) (job_id : string)
    (media_item_id : Z) (platform : string) (user_id : Z) : QueueJob :=
  QueueJob_default now job_id "media_upload"
    (<["media_item_id" := PInt media_item_id]>
     (<["platform" := PStr platform]>
      (<["user_id" := PInt user_id]> ∅)))
    HIGH None.

End Fingerprint.

(** ** QueueManager *)

(** The Redis database behind one [QueueManager]: the hashes [jobs] and
    [idempotency], the six sorted sets, and the rate-limit counters. *)
Record State := mkState {
  jobs : gmap string QueueJob;
  idempotency : gmap string string;
  pending_queue : zset;
  processing_queue : zset;
  completed_queue : zset;
  failed_queue : zset;
  retry_queue : zset;
  scheduled_queue : zset;
  rate_limits : counters_t
}.

Definition empty_state : State := mkState ∅ ∅ ∅ ∅ ∅ ∅ ∅ ∅ ∅.

Definition set_jobs (v : gmap string QueueJob) (s : State) : State :=
  mkState v (idempotency s) (pending_queue s) (processing_queue s)
    (completed_queue s) (failed_queue s) (retry_queue s) (scheduled_queue s)
    (rate_limits s).

Definition set_idempotency (v : gmap string string) (s : State) : State :=
  mkState (jobs s) v (pending_queue s) (processing_queue s)
    (completed_queue s) (failed_queue s) (retry_queue s) (scheduled_queue s)
    (rate_limits s).

Definition set_pending (v : zset) (s : State) : State :=
  mkState (jobs s) (idempotency s) v (processing_queue s)
    (completed_queue s) (failed_queue s) (retry_queue s) (scheduled_queue s)
    (rate_limits s).

Definition set_processing (v : zset) (s : State) : State :=
  mkState (jobs s) (idempotency s) (pending_queue s) v
    (completed_queue s) (failed_queue s) (retry_queue s) (scheduled_queue s)
    (rate_limits s).

Definition set_completed (v : zset) (s : State) : State :=
  mkState (jobs s) (idempotency s) (pending_queue s) (processing_queue s)
    v (failed_queue s) (retry_queue s) (scheduled_queue s) (rate_limits s).

Definition set_failed (v : zset) (s : State) : State :=
  mkState (jobs s) (idempotency s) (pending_queue s) (processing_queue s)
    (completed_queue s) v (retry_queue s) (scheduled_queue s) (rate_limits s).

Definition set_retry (v : zset) (s : State) : State :=
  mkState (jobs s) (idempotency s) (pending_queue s) (processing_queue s)
    (completed_queue s) (failed_queue s) v (scheduled_queue s) (rate_limits s).

Definition set_scheduled (v : zset) (s : State) : State :=
  mkState (jobs s) (idempotency s) (pending_queue s) (processing_queue s)
    (completed_queue s) (failed_queue s) (retry_queue s) v (rate_limits s).

Definition set_rate_limits (v : counters_t) (s : State) : State :=
  mkState (jobs s) (idempotency s) (pending_queue s) (processing_queue s)
    (completed_queue s) (failed_queue s) (retry_queue s) (scheduled_queue s)
    v.

(** ** Numbers

    A Python [int] is a [Z].  A Python [float] is a binary64 value;
    [SFmul] and [binary_normalize] of the standard library round to
    nearest, ties to even. *)

Abbreviation float := spec_float.

(** [float(z)], the conversion applied to an int operand of a float
    operation: the nearest double, or [OverflowError] when that is
    infinite. *)
Definition float_of_int (z : Z) : outcome float :=
  match binary_normalize 53 1024 z 0 false with
  | S754_infinity _ => Raises OverflowError
  | x => Returns x
  end.

(** [x * y] on floats *)
Definition float_mul (x y : float) : float := SFmul 53 1024 x y.

(** [int(x)] on a float: truncation towards zero. *)
Definition int_of_float (x : float) : outcome Z :=
  match x with
  | S754_zero _ => Returns 0
  | S754_finite s m e =>
      Returns
        (cond_Zopp s
           (if 0 <=? e then Zpos m * 2 ^ e else Zpos m / 2 ^ (- e)))
  | S754_infinity _ => Raises OverflowError
  | S754_nan => Raises ValueError
  end.

(** A number that is an int or a float, as [delay] is. *)
Inductive pynum :=
  | PyInt (z : Z)
  | PyFloat (x : float).

(** [2 ** k] for an int [k]: an int when [k >= 0]; otherwise both
    operands are converted and the result is the float [pow(2.0, k)], the
    double nearest to [2^k]. *)
Definition pow2 (k : Z) : outcome pynum :=
  if 0 <=? k then Returns (PyInt (2 ^ k))
  else
    _ ← float_of_int k;
    Returns (PyFloat (binary_normalize 53 1024 1 k false)).

(** [a * n] for an int [a] *)
Definition int_mul (a : Z) (n : pynum) : outcome pynum :=
  match n with
  | PyInt b => Returns (PyInt (a * b))
  | PyFloat y => x ← float_of_int a; Returns (PyFloat (float_mul x y))
  end.

(** [n * y] for a float [y] *)
Definition mul_float (n : pynum) (y : float) : outcome float :=
  match n with
  | PyInt a => x ← float_of_int a; Returns (float_mul x y)
  | PyFloat x => Returns (float_mul x y)
  end.

(** [QueueManager._calculate_retry_delay], with the sample [jitter] of
    [random.uniform(0.75, 1.25)] made explicit. *)
Definition _calculate_retry_delay (jitter : float)
    (retry_count base_delay : Z) : outcome Z :=
  p ← pow2 (retry_count - 1);
  delay ← int_mul base_delay p;
  x ← mul_float delay jitter;
  delay ← int_of_float x;
  Returns (Z.min delay 3600).

(** A registered handler either raises ([inl], with [str(e)]) or returns
    its result ([inr]; [None] is Python's [None]). *)
Definition handler_t : Type := payload_t → string + option payload_t.

Section QueueManager.

(** [datetime.timestamp()] of a naive datetime reads its fields in the
    zone of the host: [timestamp], kept in microseconds.  An aware one
    gives its instant. *)
Variable timestamp : Z → Z.

Definition dt_timestamp (d : datetime) : Z :=
  match d with
  | Naive wall => timestamp wall
  | Aware wall utcoffset => wall - utcoffset
  end.

(** [job.priority.value * 1000 + int(time.time())] *)
Definition priority_score (job : QueueJob) (now : Z) : Z :=
  secs (priority_value (priority job) * 1000 + int_time now).

(** [QueueManager.get_job] *)
Definition get_job (job_id : string) (st : State) : option QueueJob :=
  jobs st !! job_id.

(** [QueueManager.update_job] *)
Definition update_job (job : QueueJob) (st : State) : State :=
  set_jobs (<[id job := job]> (jobs st)) st.

(** [QueueManager.enqueue]: the returned id, or the exception, and the
    store afterwards.  [if existing_job_id:] holds for a mapping to a
    non-empty id; [fresh] is the rest of the function, run when that test
    fails.  The comparison with [datetime.utcnow()] comes after the two
    [hset] calls. *)
Definition enqueue (job : QueueJob) (now : Z) (st : State)
    : outcome string * State :=
  let fresh :=
    let st := set_jobs (<[id job := job]> (jobs st)) st in
    let st :=
      set_idempotency
        (<[idempotency_key job := id job]> (idempotency st)) st in
    match dt_le (scheduled_at job) (utcnow now) with
    | Raises e => (Raises e, st)
    | Returns true =>
        let priority_score := priority_score job now in
        (Returns (id job),
         set_pending (zadd (id job) priority_score (pending_queue st)) st)
    | Returns false =>
        let scheduled_timestamp := dt_timestamp (scheduled_at job) in
        (Returns (id job),
         set_scheduled
           (zadd (id job) scheduled_timestamp (scheduled_queue st)) st)
    end
  in
  match idempotency st !! idempotency_key job with
  | Some existing_job_id =>
      if truthy (PStr existing_job_id) then (Returns existing_job_id, st)
      else fresh
  | None => fresh
  end.

(** [QueueManager._move_scheduled_jobs] *)
Definition _move_scheduled_jobs (now : Z) (st : State) : State :=
  let current_time := now in
  let ready_jobs := zrangebyscore 0 current_time (scheduled_queue st) in
  let st :=
    foldl (λ st job_id,
             match get_job job_id st with
             | Some job =>
                 let priority_score := priority_score job now in
                 let st :=
                   set_pending
                     (zadd job_id priority_score (pending_queue st)) st in
                 set_scheduled (zrem job_id (scheduled_queue st)) st
             | None => st
             end) st ready_jobs in
  let ready_retries := zrangebyscore 0 current_time (retry_queue st) in
  foldl (λ st job_id,
           match get_job job_id st with
           | Some job =>
               let job := set_status PENDING job in
               let st := update_job job st in
               let priority_score := priority_score job now in
               let st :=
                 set_pending
                   (zadd job_id priority_score (pending_queue st)) st in
               set_retry (zrem job_id (retry_queue st)) st
           | None => st
           end) st ready_retries.

(** [QueueManager.dequeue]: the job handed to the worker, if any, and
    the store afterwards. *)
Definition dequeue (now : Z) (st : State) : option QueueJob * State :=
  let st := _move_scheduled_jobs now st in
  match zpopmax (pending_queue st) with
  | (None, _) => (None, st)
  | (Some (job_id, _), rest) =>
      let st := set_pending rest st in
      match get_job job_id st with
      | Some job =>
          let job := set_status PROCESSING job in
          let job := set_started_at (Some (utcnow now)) job in
          let st := update_job job st in
          let processing_score := secs (int_time now) in
          (Some job,
           set_processing
             (zadd job_id processing_score (processing_queue st)) st)
      | None => (None, st)
      end
  end.

(** [QueueManager.complete_job]; [result or {}] is the empty dict for
    [None] and for an empty result. *)
Definition complete_job (job_id : string) (result : option payload_t)
    (now : Z) (st : State) : State :=
  match get_job job_id st with
  | None => st
  | Some job =>
      let job := set_status COMPLETED job in
      let job := set_completed_at (Some (utcnow now)) job in
      let job := set_result (Some (default ∅ result)) job in
      let st := update_job job st in
      let st := set_processing (zrem job_id (processing_queue st)) st in
      let completed_score := secs (int_time now) in
      set_completed (zadd job_id completed_score (completed_queue st)) st
  end.

(** [QueueManager.fail_job].  The delay is computed after the id has
    left the processing set and before the record is written: when the
    computation raises, the exception leaves the function with the record
    as it was. *)
Definition fail_job (job_id error_message : string) (jitter : float)
    (now : Z) (st : State) : outcome unit * State :=
  match get_job job_id st with
  | None => (Returns (), st)
  | Some job =>
      let job := set_error_message (Some error_message) job in
      let job := set_retry_count (retry_count job + 1) job in
      let st := set_processing (zrem job_id (processing_queue st)) st in
      if retry_count job <=? max_retries job then
        let job := set_status RETRYING job in
        match
          _calculate_retry_delay jitter (retry_count job) (retry_delay job)
        with
        | Raises e => (Raises e, st)
        | Returns retry_delay =>
            let retry_time := dt_add (utcnow now) (secs retry_delay) in
            let st := update_job job st in
            let retry_score := dt_timestamp retry_time in
            (Returns (),
             set_retry (zadd job_id retry_score (retry_queue st)) st)
        end
      else
        let job := set_status FAILED job in
        let job := set_completed_at (Some (utcnow now)) job in
        let st := update_job job st in
        let failed_score := secs (int_time now) in
        (Returns (),
         set_failed (zadd job_id failed_score (failed_queue st)) st)
  end.

(** [QueueManager.cancel_job] *)
Definition cancel_job (job_id : string) (now : Z) (st : State)
    : bool * State :=
  match get_job job_id st with
  | None => (false, st)
  | Some job =>
      if terminal (status job) then (false, st)
      else
        let job := set_status CANCELLED job in
        let job := set_completed_at (Some (utcnow now)) job in
        let st := update_job job st in
        let st := set_pending (zrem job_id (pending_queue st)) st in
        let st := set_processing (zrem job_id (processing_queue st)) st in
        let st := set_retry (zrem job_id (retry_queue st)) st in
        let st := set_scheduled (zrem job_id (scheduled_queue st)) st in
        (true, st)
  end.

(** The [except] clause of [process_job]: [self.fail_job(job.id, str(e))]
    and [return False].  An exception raised by [fail_job] itself leaves
    [process_job]. *)
Definition handle_failure (job : QueueJob) (e : string) (jitter : float)
    (now : Z) (st : State) : outcome bool * State :=
  match fail_job (id job) e jitter now st with
  | (Returns _, st) => (Returns false, st)
  | (Raises e, st) => (Raises e, st)
  end.

(** [QueueManager.process_job]: the returned flag, or the exception, and
    the store afterwards.  Every exception raised inside the [try] is
    handled by the [except] clause. *)
Definition process_job (job_handlers : gmap string handler_t)
    (job : QueueJob) (jitter : float) (now : Z) (st : State)
    : outcome bool * State :=
  let platform := payload_get "platform" (payload job) in
  let user_id := payload_get "user_id" (payload job) in
  let run_handler (st : State) : outcome bool * State :=
    match job_handlers !! job_type job with
    | None =>
        let e := "No handler registered for job type: " +:+ job_type job in
        handle_failure job e jitter now st
    | Some handler =>
        match handler (payload job) with
        | inr result => (Returns true, complete_job (id job) result now st)
        | inl e => handle_failure job e jitter now st
        end
    end in
  if truthy platform && truthy user_id then
    let (allowed, c) :=
      is_allowed platform (py_str user_id) now (rate_limits st) in
    let st := set_rate_limits c st in
    if allowed then run_handler st
    else
      let reset_time :=
        get_reset_time platform (py_str user_id) now (rate_limits st) in
      match reset_time with
      | Some reset_time =>
          let job := set_scheduled_at (dt_add reset_time (secs 60)) job in
          let job := set_status PENDING job in
          let st := update_job job st in
          let scheduled_score := dt_timestamp (scheduled_at job) in
          (Returns true,
           set_scheduled
             (zadd (id job) scheduled_score (scheduled_queue st)) st)
      | None =>
          let error_msg :=
            "Rate limit exceeded for " +:+ py_str platform
            +:+ ". Resets at None" in
          handle_failure job error_msg jitter now st
      end
  else run_handler st.

(** [QueueManager.cleanup_old_jobs] *)
Definition cleanup_old_jobs (days : Z) (now : Z) (st : State) : State :=
  let cutoff_time := now - secs (days * 24 * 60 * 60) in
  let old_completed := zrangebyscore 0 cutoff_time (completed_queue st) in
  let st :=
    match old_completed with
    | [] => st
    | _ =>
        let st :=
          set_completed
            (zremrangebyscore 0 cutoff_time (completed_queue st)) st in
        foldl (λ st job_id, set_jobs (delete job_id (jobs st)) st)
          st old_completed
    end in
  let old_failed := zrangebyscore 0 cutoff_time (failed_queue st) in
  match old_failed with
  | [] => st
  | _ =>
      let st :=
        set_failed (zremrangebyscore 0 cutoff_time (failed_queue st)) st in
      foldl (λ st job_id, set_jobs (delete job_id (jobs st)) st)
        st old_failed
  end.

End QueueManager.

(** ** The worker loop and histories of calls *)

(** One pass of the body of [_worker_loop]; an exception raised by
    [process_job] is logged and the loop goes on. *)
Definition worker_iteration (timestamp : Z → Z)
    (job_handlers : gmap string handler_t) (jitter : float) (now : Z)
    (st : State) : State :=
  match dequeue now st with
  | (Some job, st) => (process_job timestamp job_handlers job jitter now st).2
  | (None, st) => st
  end.

(** The calls a producer, an operator or a worker can make. *)
Inductive op : Type :=
  | OpEnqueue (job : QueueJob)
  | OpDequeue
  | OpComplete (job_id : string) (result : option payload_t)
  | OpFail (job_id error_message : string) (jitter : float)
  | OpCancel (job_id : string)
  | OpProcess (job_handlers : gmap string handler_t) (job : QueueJob)
      (jitter : float)
  | OpCleanup (days : Z).

(** The store after a call, whether it returns or raises. *)
Definition run_op (timestamp : Z → Z) (o : op) (now : Z) (st : State)
    : State :=
  match o with
  | OpEnqueue job => (enqueue timestamp job now st).2
  | OpDequeue => (dequeue now st).2
  | OpComplete job_id result => complete_job job_id result now st
  | OpFail job_id e jitter => (fail_job timestamp job_id e jitter now st).2
  | OpCancel job_id => (cancel_job job_id now st).2
  | OpProcess job_handlers job jitter =>
      (process_job timestamp job_handlers job jitter now st).2
  | OpCleanup days => cleanup_old_jobs days now st
  end.

(** A history: each call with the clock reading at which it is made. *)
Definition run_trace (timestamp : Z → Z) (trace : list (op * Z))
    (st : State) : State :=
  foldl (λ st e, run_op timestamp e.1 e.2 st) st trace.

(** ** The rest of the manager's interface and its callers *)

(** [QueueManager.register_handler]: [self.job_handlers[job_type] =
    handler]. *)
Definition register_handler (job_type : string) (handler : handler_t)
    (job_handlers : gmap string handler_t) : gmap string handler_t :=
  <[job_type := handler]> job_handlers.

(** The dictionary returned by [QueueManager.get_queue_stats]: [ZCARD] of
    each sorted set and [HLEN] of the hash of jobs. *)
Record QueueStats := mkQueueStats {
  stat_pending : nat;
  stat_processing : nat;
  stat_completed : nat;
  stat_failed : nat;
  stat_retry : nat;
  stat_scheduled : nat;
  stat_total_jobs : nat
}.

(** [QueueManager.get_queue_stats] *)
Definition get_queue_stats (st : State) : QueueStats :=
  mkQueueStats (size (pending_queue st)) (size (processing_queue st))
    (size (completed_queue st)) (size (failed_queue st))
    (size (retry_queue st)) (size (scheduled_queue st)) (size (jobs st)).

(** Calls of [is_allowed] for one platform and user, made one after the
    other at the clock readings [ts]: the answers in order and the
    counters at the end. *)
Fixpoint is_allowed_calls (platform : pyval) (user_id : string)
    (ts : list Z) (c : counters_t) : list bool * counters_t :=
  match ts with
  | [] => ([], c)
  | now :: ts =>
      let (allowed, c) := is_allowed platform user_id now c in
      let (answers, c) := is_allowed_calls platform user_id ts c in
      (allowed :: answers, c)
  end.

(** One platform of a publishing request: the platform name, the uuid
    drawn for its job and the clock reading when the job is built and
    enqueued. *)
Record target := mkTarget {
  target_platform : string;
  target_uuid : string;
  target_now : Z
}.

(** The loop of the publishing callers ([create_unified_post] and
    [publish_unified_post] in [routes/unified_posts.py], [create] and
    [publish] in [services/mcp_tools.py]): for each platform, in order,
    [create_post_job] and [enqueue]; the ids returned are appended to
    [job_ids].  An exception raised by [enqueue] ends the loop. *)
Fixpoint enqueue_post_jobs (json_dumps_sorted : payload_t → string)
    (sha256_hexdigest : string → string) (timestamp : Z → Z)
    (unified_post_id user_id : Z) (scheduled_time : option datetime)
    (priority : JobPriority) (targets : list target)
    (job_ids : list string) (st : State)
    : outcome (list string) * State :=
  match targets with
  | [] => (Returns job_ids, st)
  | tg :: targets =>
      let job :=
        create_post_job json_dumps_sorted sha256_hexdigest
          (target_now tg) (target_uuid tg) unified_post_id
          (target_platform tg) user_id scheduled_time priority in
      match enqueue timestamp job (target_now tg) st with
      | (Returns job_id, st) =>
          enqueue_post_jobs json_dumps_sorted sha256_hexdigest timestamp
            unified_post_id user_id scheduled_time priority targets
            (job_ids ++ [job_id])%list st
      | (Raises e, st) => (Raises e, st)
      end
  end.

(** * Notions used to state the properties *)

(** ** The retry budget *)

(** A record respects its budget when RETRYING implies
    [retry_count <= max_retries]; a store does when all its records do. *)
Definition job_bounded (j : QueueJob) : Prop :=
  status j = RETRYING → retry_count j ≤ max_retries j.

Definition retry_inv (st : State) : Prop :=
  map_Forall (λ _ j, job_bounded j) (jobs st).

(** Producers submit records that respect the budget (a new job is
    PENDING with [retry_count = 0]). *)
Definition op_ok (o : op) : Prop :=
  match o with
  | OpEnqueue job => job_bounded job
  | _ => True
  end.

(** Every record is stored under its own id. *)
Definition well_keyed (st : State) : Prop :=
  map_Forall (λ k j, id j = k) (jobs st).

#[global] Instance well_keyed_dec (st : State) : Decision (well_keyed st).
Proof. unfold well_keyed. apply _. Defined.

(** [j'] is [j] with the same id and the same retry budget and count. *)
Definition same_budget (j j' : QueueJob) : Prop :=
  id j' = id j ∧ retry_count j' = retry_count j ∧
  max_retries j' = max_retries j.

(** From [st] to [st'] no record is lost and none changes its budget. *)
Definition budget_kept (st st' : State) : Prop :=
  well_keyed st' ∧
  ∀ k j, get_job k st = Some j →
    ∃ j', get_job k st' = Some j' ∧ same_budget j j'.

(** [o] reports a failure of job [job_id]. *)
Definition is_report (job_id : string) (o : op) : bool :=
  match o with
  | OpFail k _ _ => bool_decide (k = job_id)
  | _ => false
  end.

(** The calls in the life of a job that is only ever polled for and
    reported failed. *)
Definition attempt_op (job_id : string) (o : op) : Prop :=
  o = OpDequeue ∨ is_report job_id o = true.

Definition report_count (job_id : string) (trace : list (op * Z)) : Z :=
  Z.of_nat (length (List.filter (λ e, is_report job_id e.1) trace)).

(** ** Fingerprints and the order of the pending set *)

(** The fingerprint [__post_init__] derives for a job. *)
Definition derived_key (json_dumps_sorted : payload_t → string)
    (sha256_hexdigest : string → string) (j : QueueJob) : string :=
  _generate_idempotency_key json_dumps_sorted sha256_hexdigest
    (job_type j) (payload j).

(** The number of stored records that carry the fingerprint [key]. *)
Definition records_with_key (key : string) (st : State) : nat :=
  size (filter (λ kj : string * QueueJob, idempotency_key kj.2 = key)
          (jobs st)).

(** [J], inserted or promoted into the pending set at [t], stands above
    [J'], inserted or promoted at [t'], in the order of that set among
    jobs of one priority: [t] lies in a later whole second than [t'], or
    in the same second and the id of [J] is the greater one. *)
Definition ranks_above (J : QueueJob) (t : Z) (J' : QueueJob) (t' : Z)
    : Prop :=
  int_time t' < int_time t ∨
  (int_time t' = int_time t ∧ String.ltb (id J') (id J) = true).

(** ** Promotion *)

(** The entry of [k] in [m], if any, is due at [now]. *)
Definition due (now : Z) (m : zset) (k : string) : Prop :=
  ∃ sc, m !! k = Some sc ∧ 0 ≤ sc ≤ now.

(** One pass of the first loop of [_move_scheduled_jobs]. *)
Definition promote_scheduled (now : Z) (st : State) (job_id : string)
    : State :=
  match get_job job_id st with
  | Some job =>
      let priority_score := priority_score job now in
      let st :=
        set_pending (zadd job_id priority_score (pending_queue st)) st in
      set_scheduled (zrem job_id (scheduled_queue st)) st
  | None => st
  end.

(** One pass of its second loop. *)
Definition promote_retry (now : Z) (st : State) (job_id : string) : State :=
  match get_job job_id st with
  | Some job =>
      let job := set_status PENDING job in
      let st := update_job job st in
      let priority_score := priority_score job now in
      let st :=
        set_pending (zadd job_id priority_score (pending_queue st)) st in
      set_retry (zrem job_id (retry_queue st)) st
  | None => st
  end.

(** What the store holds about the id [k]: its record and its entries in
    the pending, scheduled and retry sets. *)
Definition entry (k : string) (st : State)
    : option QueueJob * option Z * option Z * option Z :=
  (get_job k st, pending_queue st !! k, scheduled_queue st !! k,
   retry_queue st !! k).

(** ** Doubles *)

(** The bounds of the jitter, 0.75 and 1.25, as doubles. *)
Definition float_0_75 : float := S754_finite false 6755399441055744 (-53).
Definition float_1_25 : float := S754_finite false 5629499534213120 (-52).

(** A sample of [random.uniform(0.75, 1.25)]: a double between the
    bounds. *)
Definition is_jitter (x : float) : Prop :=
  valid_binary 53 1024 x = true ∧
  SFleb float_0_75 x = true ∧ SFleb x float_1_25 = true.

(** The record [mrs] is what [n] right shifts of the mantissa [m] leave:
    the quotient, the round bit and the sticky bit. *)
Definition shr_inv (m n : Z) (mrs : shr_record) : Prop :=
  let R := m - shr_m mrs * 2 ^ n in
  0 ≤ shr_m mrs ∧ 0 ≤ R < 2 ^ n ∧
  (shr_r mrs = true ↔ 2 ^ n ≤ 2 * R) ∧
  (shr_s mrs = true ↔ (R ≠ 0 ∧ 2 * R ≠ 2 ^ n)).

(** ** Requirements in the words of the specification

    Each is refuted below at a concrete input and proved in an amended
    form. *)

(** The requirement in the words of the idempotency property:
    [enqueue A] followed by [enqueue B] yield the same id, exactly one
    record of the submission is stored, and the second call writes
    nothing. *)
Definition submitted_once (timestamp : Z → Z) (A B : QueueJob) (tA tB : Z)
    (st : State) : Prop :=
  ∃ job_id st1 st2,
    enqueue timestamp A tA st = (Returns job_id, st1) ∧
    enqueue timestamp B tB st1 = (Returns job_id, st2) ∧
    st2 = st1 ∧
    is_Some (get_job job_id st2) ∧
    records_with_key (idempotency_key A) st2 = 1%nat.

(** The requirement in the words of the interface description: a job that
    is PROCESSING cannot be cancelled, and the attempt leaves it as it
    was. *)
Definition cancel_refuses_processing (job_id : string) (now : Z)
    (st : State) : Prop :=
  ∀ job, get_job job_id st = Some job → status job = PROCESSING →
    (cancel_job job_id now st).1 = false ∧
    get_job job_id (cancel_job job_id now st).2 = Some job.

(** The requirement in the words of the component design: when the
    limiter rejects the call, the job goes back to PENDING in the scheduled
    structure and its retry budget is untouched. *)
Definition rate_limit_defers (timestamp : Z → Z)
    (job_handlers : gmap string handler_t) (job : QueueJob) (jitter : float)
    (now : Z) (st : State) : Prop :=
  let platform := payload_get "platform" (payload job) in
  let user_id := payload_get "user_id" (payload job) in
  truthy platform = true → truthy user_id = true →
  (is_allowed platform (py_str user_id) now (rate_limits st)).1 = false →
  let st' := (process_job timestamp job_handlers job jitter now st).2 in
  ∃ job', get_job (id job) st' = Some job' ∧
    retry_count job' = retry_count job ∧
    status job' = PENDING ∧
    is_Some (scheduled_queue st' !! id job).

(** The requirement in the words of the data model: the sweep removes a
    terminal job older than the window together with its idempotency
    mapping. *)
Definition cleanup_forgets (job_id : string) (days now : Z) (st : State)
    : Prop :=
  ∀ job t, get_job job_id st = Some job → terminal (status job) = true →
    completed_at job = Some (Naive t) →
    t < now - secs (days * 24 * 60 * 60) →
    let st' := cleanup_old_jobs days now st in
    get_job job_id st' = None ∧
    idempotency st' !! idempotency_key job = None.

(** The backoff formula as the component design words it: the delay is
    the capped product itself, for a jitter between 0.75 and 1.25. *)
Definition delay_is_capped_product (jitter : float)
    (retry_count base_delay : Z) : Prop :=
  ∃ (delay : Z) (j : Q),
    _calculate_retry_delay jitter retry_count base_delay = Returns delay ∧
    (3 # 4 <= j)%Q ∧ (j <= 5 # 4)%Q ∧
    (inject_Z delay ==
     Qmin (inject_Z base_delay * 2 ^ (retry_count - 1) * j) (inject_Z 3600))%Q.

(** The tie-break in the words of the ordering contract: of two jobs of
    one priority, the one inserted last is dequeued first. *)
Definition lifo_within_tier (timestamp : Z → Z) (J1 J2 : QueueJob)
    (t1 t2 t3 : Z) : Prop :=
  priority J1 = priority J2 → t1 ≤ t2 → t2 ≤ t3 →
  let st :=
    (enqueue timestamp J2 t2 (enqueue timestamp J1 t1 empty_state).2).2 in
  is_Some (pending_queue st !! id J1) →
  is_Some (pending_queue st !! id J2) →
  (id <$> (dequeue t3 st).1) = Some (id J2).

(** * A concrete environment for the examples

    The theorems below hold for every choice of the library functions; the
    examples run on a host in UTC, with stand-ins for the JSON printer and
    the digest that keep the contents used here distinct. *)

Definition utc_timestamp (wall : Z) : Z := wall.

(** The doubles 1.0, 0.9 and 1.2, three samples of the jitter. *)
Definition float_1_0 : float := S754_finite false 4503599627370496 (-52).
Definition float_0_9 : float := S754_finite false 8106479329266893 (-53).
Definition float_1_2 : float := S754_finite false 5404319552844595 (-52).

Definition demo_dumps (p : payload_t) : string :=
  foldr (λ kv acc, kv.1 +:+ "=" +:+ py_str kv.2 +:+ ";" +:+ acc) ""
    (map_to_list p).

Fixpoint demo_hash (h : Z) (s : string) : Z :=
  match s with
  | EmptyString => h
  | String c s => demo_hash ((h * 31 + Z.of_N (N_of_ascii c)) `mod` 2 ^ 64) s
  end.

Definition demo_digest (s : string) : string := pretty (demo_hash 7 s).

(** 2023-11-14 22:13:20 UTC, in microseconds. *)
Definition t0 : Z := secs 1700000000.

(** A post job of user 7 for a platform without a configured limit. *)
Definition demo_job (now : Z) (id : string) (post : Z)
    (priority : JobPriority) : QueueJob :=
  create_post_job demo_dumps demo_digest now id post "mastodon" 7 None
    priority.

(** A NORMAL post job of user 7 to be published at [publish_at]. *)
Definition demo_scheduled_job (now : Z) (id : string) (post : Z)
    (publish_at : datetime) : QueueJob :=
  create_post_job demo_dumps demo_digest now id post "mastodon" 7
    (Some publish_at) NORMAL.

(** One job, enqueued and handed to a worker one second later. *)
Definition st_enqueued : State :=
  (enqueue utc_timestamp (demo_job t0 "job-1" 1 NORMAL) t0 empty_state).2.

Definition st_processing : State := (dequeue (t0 + secs 1) st_enqueued).2.

(** The job handed to the worker in [st_processing]. *)
Definition job_in_flight : QueueJob :=
  set_started_at (Some (utcnow (t0 + secs 1)))
    (set_status PROCESSING (demo_job t0 "job-1" 1 NORMAL)).

(** While the handler of [job_in_flight] runs, the job is cancelled. *)
Definition st_cancelled : State :=
  (cancel_job "job-1" (t0 + secs 2) st_processing).2.

(** A handler that succeeds and one that raises. *)
Definition ok_handler : handler_t := λ _, inr None.
Definition failing_handler : handler_t := λ _, inl "boom".

(** The handler returns one second later and [process_job] reports
    success. *)
Definition st_completed_after_cancel : State :=
  (process_job utc_timestamp {[ "social_media_post" := ok_handler ]}
     job_in_flight float_1_0 (t0 + secs 3) st_cancelled).2.

(** An URGENT job, then, fifty minutes later, a LOW job; both are due at
    once and both are pending when the worker asks for a job. *)
Definition st_urgent_low : State :=
  let st := (enqueue utc_timestamp (demo_job t0 "urgent" 1 URGENT) t0
               empty_state).2 in
  (enqueue utc_timestamp
     (demo_job (t0 + secs 3001) "low" 2 LOW) (t0 + secs 3001) st).2.

(** URGENT, LOW, HIGH in that order, the last 1001 seconds after the
    first. *)
Definition st_urgent_low_high : State :=
  let st := (enqueue utc_timestamp (demo_job t0 "urgent" 1 URGENT) t0
               empty_state).2 in
  let st := (enqueue utc_timestamp
               (demo_job (t0 + secs 10) "low" 2 LOW) (t0 + secs 10) st).2 in
  (enqueue utc_timestamp
     (demo_job (t0 + secs 1001) "high" 3 HIGH) (t0 + secs 1001) st).2.

(** A job completed two seconds after it was enqueued. *)
Definition st_completed : State :=
  complete_job "job-1" None (t0 + secs 2) st_processing.

(** A LinkedIn job of user 7, enqueued and handed to a worker while the
    100 calls of the hour have been used up at [t0]. *)
Definition linkedin_job : QueueJob :=
  create_post_job demo_dumps demo_digest t0 "job-li" 1 "linkedin" 7 None
    NORMAL.

Definition linkedin_in_flight : QueueJob :=
  set_started_at (Some (utcnow (t0 + secs 1)))
    (set_status PROCESSING linkedin_job).

Definition st_limited : State :=
  let st := (enqueue utc_timestamp linkedin_job t0 empty_state).2 in
  let st := (dequeue (t0 + secs 1) st).2 in
  set_rate_limits
    (Nat.iter 100 (λ c, (is_allowed (PStr "linkedin") "7" t0 c).2) ∅) st.

(** 0.4 seconds before the window of the counter closes. *)
Definition t_closing : Z := t0 + secs 3600 - 400000.

(** The worker loop on the job of [st_enqueued], whose handler always
    raises: three retries with delays of 60, 120 and 240 seconds, then
    FAILED at the fourth attempt. *)
Definition st_after_attempts (n : nat) : State :=
  foldl (λ st now,
           worker_iteration utc_timestamp
             {[ "social_media_post" := failing_handler ]} float_1_0 now st)
    st_enqueued
    (take n [t0 + secs 1; t0 + secs 100; t0 + secs 300; t0 + secs 600]).

(** The sweep eight days after the completion of the job of
    [st_completed]: its record is deleted, the mapping of its fingerprint
    stays. *)
Definition st_swept : State :=
  cleanup_old_jobs 7 (t0 + secs (8 * 24 * 60 * 60)) st_completed.

(** A job like that of [st_enqueued], allowed 1100 retries. *)
Definition long_job : QueueJob :=
  QueueJob_init demo_dumps demo_digest t0 "job-1" "social_media_post"
    (<["unified_post_id" := PInt 1]>
     (<["platform" := PStr "mastodon"]> (<["user_id" := PInt 7]> ∅)))
    NORMAL PENDING None None None None 0 1100 60 None None None.

(** The worker loop on [long_job], whose handler always raises: one pass
    every 3601 seconds, when the retry is due. *)
Definition st_long_run (n : nat) : State :=
  foldl (λ st i,
           worker_iteration utc_timestamp
             {[ "social_media_post" := failing_handler ]} float_1_0
             (t0 + secs (3601 * i)) st)
    (enqueue utc_timestamp long_job t0 empty_state).2
    (seqZ 1 (Z.of_nat n)).



(** * Properties *)

(** Reduce the projections of pairs and of the store, and nothing else. *)
Ltac fields :=
  cbn [fst snd jobs idempotency pending_queue processing_queue
       completed_queue failed_queue retry_queue scheduled_queue rate_limits
       empty_state].

(** ** The order of a sorted set *)

Section zset_facts.

Lemma string_leb_refl s : String.leb s s = true.
Proof.
  destruct (String.leb_total s s); done.
Qed.

Lemma string_leb_trans s1 s2 s3 :
  String.leb s1 s2 = true → String.leb s2 s3 = true →
  String.leb s1 s3 = true.
Proof.
  unfold String.leb. intros H12 H23.
  destruct (String.compare s1 s2) eqn:E12; [| |done].
  - apply String_as_OT.cmp_eq in E12. by subst.
  - destruct (String.compare s2 s3) eqn:E23; [| |done].
    + apply String_as_OT.cmp_eq in E23. subst. by rewrite E12.
    + apply String_as_OT.cmp_lt in E12, E23.
      pose proof (String_as_OT.lt_trans _ _ _ E12 E23) as Hlt.
      apply String_as_OT.cmp_lt in Hlt.
      unfold String_as_OT.cmp in Hlt. by rewrite Hlt.
Qed.

#[global] Instance zle_total : Total zle.
Proof.
  intros [k1 s1] [k2 s2]. unfold zle. simpl.
  destruct (Z.lt_trichotomy s1 s2) as [?|[->|?]]; [by left; left| |by right; left].
  destruct (String.leb_total k1 k2); [left|right]; by right.
Qed.

#[global] Instance zle_trans : Transitive zle.
Proof.
  intros [k1 s1] [k2 s2] [k3 s3]. unfold zle. simpl.
  intros [?|[-> H12]] [?|[-> H23]]; try (left; lia).
  right. eauto using string_leb_trans.
Qed.

Lemma zle_antisym a b : zle a b → zle b a → a = b.
Proof.
  destruct a as [k1 s1], b as [k2 s2]. unfold zle. simpl.
  intros [?|[-> H12]] [?|[? H21]]; try lia.
  f_equal. by apply String.leb_antisym.
Qed.

Lemma elem_of_zrange (m : zset) k sc :
  (k, sc) ∈ zrange m ↔ m !! k = Some sc.
Proof.
  unfold zrange. rewrite merge_sort_Permutation.
  apply elem_of_map_to_list.
Qed.

Lemma zrange_sorted (m : zset) : StronglySorted zle (zrange m).
Proof. apply StronglySorted_merge_sort; apply _. Qed.

(** The popped entry is in the set, it is removed, and every entry of
    the set is below it in the set order. *)
Lemma zpopmax_Some (m rest : zset) k sc :
  zpopmax m = (Some (k, sc), rest) →
  m !! k = Some sc ∧ rest = delete k m ∧
  ∀ k' sc', m !! k' = Some sc' → zle (k', sc') (k, sc).
Proof.
  unfold zpopmax. destruct (last (zrange m)) as [[k0 s0]|] eqn:Hlast;
    [|done].
  intros [= -> -> <-].
  apply last_Some in Hlast as [l' Hl'].
  split_and!; [|done|].
  - apply elem_of_zrange. rewrite Hl'. set_solver.
  - intros k' sc' Hk'. apply elem_of_zrange in Hk'.
    pose proof (zrange_sorted m) as Hs. rewrite Hl' in Hs, Hk'.
    apply elem_of_app in Hk' as [Hin|Hin].
    + eapply StronglySorted_app_1_elem_of; [done..|set_solver].
    + apply list_elem_of_singleton in Hin as ->.
      destruct (total zle (k, sc) (k, sc)); done.
Qed.

Lemma zpopmax_None (m rest : zset) :
  zpopmax m = (None, rest) → m = ∅ ∧ rest = ∅.
Proof.
  unfold zpopmax. destruct (last (zrange m)) as [[k0 s0]|] eqn:Hlast;
    [done|].
  intros [= <-]. apply last_None in Hlast.
  assert (m = ∅) as ->; [|done].
  apply map_to_list_empty_iff. apply Permutation_nil_r.
  rewrite <-Hlast. unfold zrange. by rewrite merge_sort_Permutation.
Qed.

Lemma zpopmax_is_Some (m : zset) k sc :
  m !! k = Some sc → ∃ k' sc', zpopmax m = (Some (k', sc'), delete k' m).
Proof.
  intros Hk. unfold zpopmax.
  destruct (last (zrange m)) as [[k0 s0]|] eqn:Hlast; [eauto|].
  apply last_None in Hlast. apply elem_of_zrange in Hk.
  rewrite Hlast in Hk. set_solver.
Qed.

Lemma elem_of_zrangebyscore lo hi (m : zset) k :
  k ∈ zrangebyscore lo hi m ↔ ∃ sc, m !! k = Some sc ∧ lo ≤ sc ≤ hi.
Proof.
  unfold zrangebyscore. rewrite list_elem_of_fmap. split.
  - intros [[k' sc] [-> Hin]]. apply list_elem_of_In in Hin.
    apply filter_In in Hin as [Hin Hr]. apply list_elem_of_In in Hin.
    apply elem_of_zrange in Hin. exists sc. split; [done|].
    unfold in_range in Hr. simpl in Hr. lia.
  - intros (sc & Hk & Hr). exists (k, sc). split; [done|].
    apply list_elem_of_In, filter_In. split.
    + by apply list_elem_of_In, elem_of_zrange.
    + unfold in_range. simpl. lia.
Qed.

Lemma lookup_zremrangebyscore lo hi (m : zset) k :
  zremrangebyscore lo hi m !! k =
  match m !! k with
  | Some sc => if in_range lo hi (k, sc) then None else Some sc
  | None => None
  end.
Proof.
  unfold zremrangebyscore. rewrite map_lookup_filter.
  destruct (m !! k) as [sc|]; simpl; [|done].
  destruct (in_range lo hi (k, sc)) eqn:E; case_guard; by simplify_eq/=.
Qed.

End zset_facts.

(** ** Cancellation *)

Lemma terminal_false s :
  terminal s = false ↔ s = PENDING ∨ s = QUEUED ∨ s = PROCESSING ∨ s = RETRYING.
Proof. destruct s; simpl; intuition congruence. Qed.

Lemma terminal_true s :
  terminal s = true ↔ s = COMPLETED ∨ s = FAILED ∨ s = CANCELLED.
Proof. destruct s; simpl; intuition congruence. Qed.

(** C1, as stated, fails: the job handed to a worker is PROCESSING, and
    [cancel_job] cancels it. *)
Lemma cancel_processing_counterexample :
  ¬ cancel_refuses_processing "job-1" (t0 + secs 2) st_processing.
Proof.
  intros H.
  destruct (H job_in_flight) as [Hret _]; [by vm_compute..|].
  vm_compute in Hret. discriminate.
Qed.

(** C1, amended: [cancel_job] refuses exactly the jobs that are missing
    or already COMPLETED, FAILED or CANCELLED, and then changes nothing.
    For a job in any other status, PROCESSING included, it returns true,
    stores the job as CANCELLED with [completed_at] set to the time of the
    call, and removes its id from the pending, processing, retry and
    scheduled structures; the other structures are untouched. *)
Theorem cancel_job_spec (job_id : string) (now : Z) (st : State)
    (job : QueueJob) :
  get_job job_id st = Some job →
  (status job = COMPLETED ∨ status job = FAILED ∨ status job = CANCELLED →
   cancel_job job_id now st = (false, st)) ∧
  (status job = PENDING ∨ status job = QUEUED ∨ status job = PROCESSING
   ∨ status job = RETRYING →
   ∃ st', cancel_job job_id now st = (true, st') ∧
     get_job (id job) st' =
       Some (set_completed_at (Some (utcnow now))
               (set_status CANCELLED job)) ∧
     pending_queue st' !! job_id = None ∧
     processing_queue st' !! job_id = None ∧
     retry_queue st' !! job_id = None ∧
     scheduled_queue st' !! job_id = None ∧
     completed_queue st' = completed_queue st ∧
     failed_queue st' = failed_queue st ∧
     idempotency st' = idempotency st).
Proof.
  intros Hjob. unfold cancel_job. rewrite Hjob. split.
  - intros Ht. apply terminal_true in Ht. by rewrite Ht.
  - intros Hnt. apply terminal_false in Hnt. rewrite Hnt.
    eexists. split; [done|]. simpl. unfold get_job, zrem. simpl.
    rewrite lookup_insert_eq, !lookup_delete_eq. done.
Qed.

Lemma cancel_job_spec_witness :
  ∃ st', cancel_job "job-1" (t0 + secs 2) st_processing = (true, st') ∧
    (status <$> get_job "job-1" st') = Some CANCELLED ∧
    processing_queue st' !! "job-1" = None.
Proof.
  destruct (cancel_job_spec "job-1" (t0 + secs 2) st_processing
              job_in_flight) as [_ Hc]; [by vm_compute|].
  destruct Hc as (st' & Hrun & Hget & _ & Hproc & _); [by right; right; left|].
  exists st'. split; [done|]. split; [|done].
  change (id _) with "job-1" in Hget. by rewrite Hget.
Defined.

(** A missing job is refused as well. *)
Lemma cancel_job_missing (job_id : string) (now : Z) (st : State) :
  get_job job_id st = None → cancel_job job_id now st = (false, st).
Proof. intros H. unfold cancel_job. by rewrite H. Qed.


(** ** Idempotent submission *)

Lemma truthy_PStr (e : string) : truthy (PStr e) = true ↔ e ≠ "".
Proof.
  simpl. destruct (String.eqb_spec e ""); simpl; intuition congruence.
Qed.

Section idempotency.

Variable json_dumps_sorted : payload_t → string.
Variable sha256_hexdigest : string → string.
Variable timestamp : Z → Z.

Local Abbreviation derived_key :=
  (derived_key json_dumps_sorted sha256_hexdigest).

(** Equal type and equal canonical JSON give equal fingerprints. *)
Lemma derived_key_eq (A B : QueueJob) :
  job_type A = job_type B →
  json_dumps_sorted (payload A) = json_dumps_sorted (payload B) →
  derived_key A = derived_key B.
Proof.
  intros Ht Hp. unfold derived_key, _generate_idempotency_key.
  by rewrite Ht, Hp.
Qed.

(** A job that [__post_init__] was left to fingerprint carries the
    derived key. *)
Lemma QueueJob_init_key now i ty p pr s c sch sta com rc mr rd em res :
  let j := QueueJob_init json_dumps_sorted sha256_hexdigest now i ty p pr
             s c sch sta com rc mr rd None em res in
  idempotency_key j = derived_key j.
Proof. done. Qed.

(** An active mapping short-circuits [enqueue]: nothing is written, and
    the schedule of the job is not looked at. *)
Lemma enqueue_existing (job : QueueJob) (now : Z) (st : State) e :
  idempotency st !! idempotency_key job = Some e → e ≠ "" →
  enqueue timestamp job now st = (Returns e, st).
Proof.
  intros Hk He. unfold enqueue. rewrite Hk.
  apply truthy_PStr in He. by rewrite He.
Qed.

(** Without one, the record and the mapping are written under the job's
    own id and key; then the schedule is compared with the clock. *)
Lemma enqueue_fresh (job : QueueJob) (now : Z) (st : State) :
  (∀ e, idempotency st !! idempotency_key job = Some e → e = "") →
  enqueue timestamp job now st =
  let st1 :=
    mkState (<[id job := job]> (jobs st))
      (<[idempotency_key job := id job]> (idempotency st))
      (pending_queue st) (processing_queue st) (completed_queue st)
      (failed_queue st) (retry_queue st) (scheduled_queue st)
      (rate_limits st) in
  match dt_le (scheduled_at job) (utcnow now) with
  | Raises e => (Raises e, st1)
  | Returns true =>
      (Returns (id job),
       set_pending
         (zadd (id job) (priority_score job now) (pending_queue st)) st1)
  | Returns false =>
      (Returns (id job),
       set_scheduled
         (zadd (id job) (dt_timestamp timestamp (scheduled_at job))
            (scheduled_queue st)) st1)
  end.
Proof.
  intros Hk. unfold enqueue.
  destruct (idempotency st !! idempotency_key job) as [e|] eqn:E; [|done].
  by rewrite (Hk e eq_refl).
Qed.

(** A job with a naive schedule is queued: in the pending set when it is
    due, in the scheduled set otherwise. *)
Lemma enqueue_fresh_naive (job : QueueJob) (now wall : Z) (st : State) :
  (∀ e, idempotency st !! idempotency_key job = Some e → e = "") →
  scheduled_at job = Naive wall →
  enqueue timestamp job now st =
  (Returns (id job),
   mkState (<[id job := job]> (jobs st))
     (<[idempotency_key job := id job]> (idempotency st))
     (if wall <=? now
      then zadd (id job) (priority_score job now) (pending_queue st)
      else pending_queue st)
     (processing_queue st) (completed_queue st) (failed_queue st)
     (retry_queue st)
     (if wall <=? now then scheduled_queue st
      else zadd (id job) (timestamp wall) (scheduled_queue st))
     (rate_limits st)).
Proof.
  intros Hk Hs. rewrite enqueue_fresh by done. rewrite Hs. simpl.
  by destruct (wall <=? now).
Qed.

(** A job with an aware schedule is stored and mapped, and then the
    comparison with the naive clock raises: the job is in no queue. *)
Lemma enqueue_fresh_aware (job : QueueJob) (now wall offset : Z)
    (st : State) :
  (∀ e, idempotency st !! idempotency_key job = Some e → e = "") →
  scheduled_at job = Aware wall offset →
  enqueue timestamp job now st =
  (Raises TypeError,
   mkState (<[id job := job]> (jobs st))
     (<[idempotency_key job := id job]> (idempotency st))
     (pending_queue st) (processing_queue st) (completed_queue st)
     (failed_queue st) (retry_queue st) (scheduled_queue st)
     (rate_limits st)).
Proof. intros Hk Hs. rewrite enqueue_fresh by done. by rewrite Hs. Qed.

Lemma enqueue_cases (job : QueueJob) (now : Z) (st : State) :
  (∃ e, idempotency st !! idempotency_key job = Some e ∧ e ≠ "" ∧
        enqueue timestamp job now st = (Returns e, st)) ∨
  (∃ r st', enqueue timestamp job now st = (r, st') ∧
     jobs st' = <[id job := job]> (jobs st) ∧
     idempotency st' = <[idempotency_key job := id job]> (idempotency st)).
Proof.
  assert ((∀ e, idempotency st !! idempotency_key job = Some e → e = "") →
          ∃ r st', enqueue timestamp job now st = (r, st') ∧
            jobs st' = <[id job := job]> (jobs st) ∧
            idempotency st' =
              <[idempotency_key job := id job]> (idempotency st)) as Hfresh.
  { intros Hk. rewrite enqueue_fresh by done. cbv zeta.
    destruct (dt_le _ _) as [[]|]; eauto. }
  destruct (idempotency st !! idempotency_key job) as [e|] eqn:E.
  - destruct (decide (e = "")) as [->|Hne].
    + right. apply Hfresh. intros e'. congruence.
    + left. exists e. eauto using enqueue_existing.
  - right. apply Hfresh. intros e'. congruence.
Qed.

(** C2, amended: two jobs of the same type whose payloads print to the
    same key-sorted JSON, each carrying the fingerprint derived from its
    content, are one submission; [A] has a non-empty id and a naive
    schedule.  Whatever the store held before, [enqueue A] followed by
    [enqueue B] return the same id, and the second call leaves the whole
    store as the first left it.  If the fingerprint had no active mapping,
    the id is that of [A], the first call stores the record of [A] under
    it and no other record, maps the fingerprint to it and queues it once,
    in the pending set when due and in the scheduled set otherwise; from
    the empty store exactly one record is stored.  If the fingerprint was
    mapped, both calls return the mapped id and write nothing at all,
    whether or not a record is still stored under that id. *)
Theorem enqueue_idempotent (A B : QueueJob) (tA tB wall : Z) (st : State) :
  idempotency_key A = derived_key A →
  idempotency_key B = derived_key B →
  job_type A = job_type B →
  json_dumps_sorted (payload A) = json_dumps_sorted (payload B) →
  id A ≠ "" → scheduled_at A = Naive wall →
  ∃ job_id st1,
    enqueue timestamp A tA st = (Returns job_id, st1) ∧
    enqueue timestamp B tB st1 = (Returns job_id, st1) ∧
    ((∀ e, idempotency st !! idempotency_key A = Some e → e = "") →
     job_id = id A ∧
     get_job job_id st1 = Some A ∧
     (∀ k, k ≠ id A → get_job k st1 = get_job k st) ∧
     idempotency st1 !! idempotency_key A = Some (id A) ∧
     (if wall <=? tA
      then pending_queue st1 !! id A = Some (priority_score A tA) ∧
           scheduled_queue st1 = scheduled_queue st
      else scheduled_queue st1 !! id A = Some (timestamp wall) ∧
           pending_queue st1 = pending_queue st) ∧
     (st = empty_state →
      records_with_key (idempotency_key A) st1 = 1%nat ∧
      size (jobs st1) = 1%nat)) ∧
    (∀ e, idempotency st !! idempotency_key A = Some e → e ≠ "" →
          job_id = e ∧ st1 = st).
Proof.
  intros HA HB Ht Hp Hid Hw.
  assert (idempotency_key B = idempotency_key A) as HBA.
  { rewrite HA, HB. symmetry. by apply derived_key_eq. }
  destruct (idempotency st !! idempotency_key A) as [e|] eqn:E;
    [destruct (decide (e = "")) as [->|Hne]|].
  2:{ exists e, st. split_and!.
      - by apply enqueue_existing.
      - apply enqueue_existing; [|done]. by rewrite HBA.
      - intros Hk. by specialize (Hk e eq_refl).
      - intros e' [= <-] _. done. }
  all: eexists (id A), _; split;
    [apply (enqueue_fresh_naive A tA wall st); [intros e'; congruence|done]|];
    split;
    [apply enqueue_existing; [|done]; fields;
     by rewrite HBA, lookup_insert_eq|];
    split; [|intros e' [= <-]; done];
    intros _; unfold get_job; fields;
    rewrite !lookup_insert_eq;
    (split_and!; [done|done|by intros k Hk; rewrite lookup_insert_ne|done| |]);
    [destruct (wall <=? tA); unfold zadd; by rewrite lookup_insert_eq
    |intros ->; fields; unfold records_with_key; fields;
     rewrite insert_empty, map_filter_singleton_True by done;
     by rewrite map_size_singleton].
Qed.

End idempotency.

Lemma enqueue_idempotent_witness :
  ∃ job_id st1,
    enqueue utc_timestamp (demo_job t0 "job-1" 1 NORMAL) t0 empty_state
      = (Returns job_id, st1) ∧
    enqueue utc_timestamp (demo_job (t0 + secs 5) "job-2" 1 HIGH) (t0 + secs 5)
      st1 = (Returns job_id, st1) ∧
    get_job job_id st1 = Some (demo_job t0 "job-1" 1 NORMAL) ∧
    size (jobs st1) = 1%nat.
Proof.
  destruct (enqueue_idempotent demo_dumps demo_digest utc_timestamp
              (demo_job t0 "job-1" 1 NORMAL)
              (demo_job (t0 + secs 5) "job-2" 1 HIGH)
              t0 (t0 + secs 5) t0 empty_state)
    as (job_id & st1 & H1 & H2 & H3 & _);
    [reflexivity|reflexivity|reflexivity|..].
  - vm_compute. reflexivity.
  - vm_compute. discriminate.
  - reflexivity.
  - exists job_id, st1. split; [exact H1|]. split; [exact H2|].
    destruct H3 as (_ & Hget & _ & _ & _ & Hone).
    { intros e He. vm_compute in He. discriminate He. }
    split; [exact Hget|]. exact (proj2 (Hone eq_refl)).
Defined.

(** C2, as stated, fails: the mapping of a fingerprint outlives the
    record it points to.  After the sweep of [st_swept], two submissions
    with the content of the deleted job both get its id back, and no
    record is stored under that id or for that content. *)
Lemma resubmission_after_cleanup_counterexample :
  ¬ submitted_once utc_timestamp
      (demo_job (t0 + secs 800000) "job-2" 1 NORMAL)
      (demo_job (t0 + secs 800001) "job-3" 1 NORMAL)
      (t0 + secs 800000) (t0 + secs 800001) st_swept.
Proof.
  intros (job_id & st1 & st2 & H1 & _ & -> & Hsome & _).
  assert (enqueue utc_timestamp
            (demo_job (t0 + secs 800000) "job-2" 1 NORMAL)
            (t0 + secs 800000) st_swept = (Returns "job-1", st_swept)) as E
    by (vm_compute; reflexivity).
  rewrite E in H1.
  pose proof (f_equal fst H1) as Hid. pose proof (f_equal snd H1) as Hst.
  cbn [fst snd] in Hid, Hst. subst st1. injection Hid as <-.
  destruct Hsome as [j Hj]. vm_compute in Hj. discriminate Hj.
Qed.

(** ** Terminal states *)

(** [complete_job] overwrites whatever status and completion time the
    record has. *)
Lemma complete_job_any_status (job_id : string) (result : option payload_t)
    (now : Z) (st : State) (job : QueueJob) :
  get_job job_id st = Some job →
  get_job (id job) (complete_job job_id result now st) =
    Some (set_result (Some (default ∅ result))
            (set_completed_at (Some (utcnow now))
               (set_status COMPLETED job))).
Proof.
  intros Hjob. unfold complete_job. rewrite Hjob. unfold get_job. simpl.
  apply lookup_insert_eq.
Qed.

(** C3 fails on the code: [complete_job] and [fail_job] do not look at the
    status they overwrite.  A job cancelled while its handler runs is
    CANCELLED with [completed_at] set; when the handler returns,
    [complete_job] makes it COMPLETED and replaces [completed_at]; a
    failure reported for that COMPLETED job makes it RETRYING. *)
Theorem terminal_status_overwritten :
  get_job "job-1" st_processing = Some job_in_flight ∧
  (status <$> get_job "job-1" st_cancelled) = Some CANCELLED ∧
  (completed_at <$> get_job "job-1" st_cancelled)
    = Some (Some (utcnow (t0 + secs 2))) ∧
  (status <$> get_job "job-1" st_completed_after_cancel) = Some COMPLETED ∧
  (completed_at <$> get_job "job-1" st_completed_after_cancel)
    = Some (Some (utcnow (t0 + secs 3))) ∧
  (status <$> get_job "job-1"
     (fail_job utc_timestamp "job-1" "late failure" float_1_0 (t0 + secs 4)
        st_completed_after_cancel).2) = Some RETRYING.
Proof. by vm_compute. Qed.

(** ** Priority order *)

(** The higher tier does come first while the lower one was inserted
    less than 1000 seconds per tier of difference after it. *)
Lemma priority_score_lt (J1 J2 : QueueJob) (t1 t2 : Z) :
  priority_value (priority J1) < priority_value (priority J2) →
  int_time t1 - int_time t2
    < 1000 * (priority_value (priority J2) - priority_value (priority J1)) →
  priority_score J1 t1 < priority_score J2 t2.
Proof. unfold priority_score, secs, usec. lia. Qed.

(** C6 fails on the code: the pending score adds the clock's seconds to
    [priority * 1000], so a lower tier inserted more than 1000 seconds
    per tier later outranks a higher one.  With both jobs pending,
    [dequeue] returns the LOW job before the URGENT one; and of URGENT,
    LOW, HIGH it returns HIGH first. *)
Theorem priority_outranked_by_time :
  pending_queue st_urgent_low
    = zadd "low" (secs 1700004001) (zadd "urgent" (secs 1700004000) ∅) ∧
  (id <$> (dequeue (t0 + secs 3002) st_urgent_low).1) = Some "low" ∧
  (priority <$> (dequeue (t0 + secs 3002) st_urgent_low).1) = Some LOW ∧
  (priority <$> (dequeue (t0 + secs 1002) st_urgent_low_high).1) = Some HIGH.
Proof. split_and!; vm_compute; reflexivity. Qed.

(** ** Cleanup *)

Section cleanup.

Lemma foldl_delete_lookup {A} (l : list string) (m : gmap string A) k :
  foldl (λ m job_id, delete job_id m) m l !! k =
  if bool_decide (k ∈ l) then None else m !! k.
Proof.
  revert m. induction l as [|x l IH]; intros m; simpl; [done|].
  rewrite IH. destruct (decide (k = x)) as [->|Hne].
  - rewrite lookup_delete_eq.
    rewrite (bool_decide_eq_true_2 (x ∈ x :: l)) by apply list_elem_of_here.
    by case_bool_decide.
  - rewrite lookup_delete_ne by done.
    apply (f_equal (λ b : bool, if b then None else m !! k)).
    apply bool_decide_ext. rewrite elem_of_cons. tauto.
Qed.

Lemma foldl_hdel_jobs (l : list string) (st : State) :
  foldl (λ st job_id, set_jobs (delete job_id (jobs st)) st) st l =
  set_jobs (foldl (λ m job_id, delete job_id m) (jobs st) l) st.
Proof.
  revert st. induction l as [|x l IH]; intros st; simpl.
  - by destruct st.
  - by rewrite IH.
Qed.

Lemma zremrangebyscore_nil lo hi (m : zset) :
  zrangebyscore lo hi m = [] → zremrangebyscore lo hi m = m.
Proof.
  intros Hnil. apply map_eq. intros k.
  rewrite lookup_zremrangebyscore.
  destruct (m !! k) as [sc|] eqn:Hk; [|done].
  destruct (in_range lo hi (k, sc)) eqn:Hr; [|done].
  assert (k ∈ zrangebyscore lo hi m) as Hin.
  { apply elem_of_zrangebyscore. exists sc. split; [done|].
    unfold in_range in Hr. simpl in Hr. lia. }
  rewrite Hnil in Hin. by apply elem_of_nil in Hin.
Qed.

(** The two sweeps of [cleanup_old_jobs] in closed form. *)
Lemma cleanup_old_jobs_eq (days now : Z) (st : State) :
  let cutoff_time := now - secs (days * 24 * 60 * 60) in
  let old_completed := zrangebyscore 0 cutoff_time (completed_queue st) in
  let old_failed := zrangebyscore 0 cutoff_time (failed_queue st) in
  cleanup_old_jobs days now st =
  mkState
    (foldl (λ m job_id, delete job_id m)
       (foldl (λ m job_id, delete job_id m) (jobs st) old_completed)
       old_failed)
    (idempotency st) (pending_queue st) (processing_queue st)
    (zremrangebyscore 0 cutoff_time (completed_queue st))
    (zremrangebyscore 0 cutoff_time (failed_queue st))
    (retry_queue st) (scheduled_queue st) (rate_limits st).
Proof.
  intros cutoff_time old_completed old_failed. unfold cleanup_old_jobs.
  fold cutoff_time. fold old_completed.
  set (st1 := match old_completed with [] => st | _ => _ end).
  assert (st1 = mkState
            (foldl (λ m job_id, delete job_id m) (jobs st) old_completed)
            (idempotency st) (pending_queue st) (processing_queue st)
            (zremrangebyscore 0 cutoff_time (completed_queue st))
            (failed_queue st) (retry_queue st) (scheduled_queue st)
            (rate_limits st)) as ->.
  { subst st1. destruct old_completed as [|x l] eqn:E.
    - subst old_completed. rewrite (zremrangebyscore_nil _ _ _ E).
      by destruct st.
    - by rewrite foldl_hdel_jobs. }
  simpl. fold old_failed.
  destruct old_failed as [|x l] eqn:E.
  - subst old_failed. by rewrite (zremrangebyscore_nil _ _ _ E).
  - by rewrite foldl_hdel_jobs.
Qed.

End cleanup.

(** C5, as stated, fails: eight days after completion the sweep deletes
    the record of the job, and the idempotency mapping to its id stays. *)
Lemma cleanup_keeps_mapping_counterexample :
  ¬ cleanup_forgets "job-1" 7 (t0 + secs (8 * 24 * 60 * 60)) st_completed.
Proof.
  intros H.
  destruct (H (set_result (Some ∅)
                 (set_completed_at (Some (utcnow (t0 + secs 2)))
                    (set_status COMPLETED job_in_flight)))
              (t0 + secs 2)) as [_ Hkey]; [by vm_compute..|].
  vm_compute in Hkey. discriminate.
Qed.

(** C5, amended: the sweep works from the completed and failed structures.
    An id whose score there (the whole second of its completion) lies
    between 0 and [now - days * 86400] loses its record and its entry in
    that structure; every other id keeps its record and its entries, so
    younger jobs and cancelled jobs, which are in neither structure, are
    retained.  The idempotency mappings and the other structures are left
    as they were. *)
Theorem cleanup_old_jobs_spec (days now : Z) (st : State) (job_id : string) :
  let cutoff_time := now - secs (days * 24 * 60 * 60) in
  let st' := cleanup_old_jobs days now st in
  (∀ sc, completed_queue st !! job_id = Some sc ∨
         failed_queue st !! job_id = Some sc →
         0 ≤ sc ≤ cutoff_time →
         get_job job_id st' = None) ∧
  (∀ sc, completed_queue st !! job_id = Some sc → 0 ≤ sc ≤ cutoff_time →
         completed_queue st' !! job_id = None) ∧
  (∀ sc, failed_queue st !! job_id = Some sc → 0 ≤ sc ≤ cutoff_time →
         failed_queue st' !! job_id = None) ∧
  ((∀ sc, completed_queue st !! job_id = Some sc ∨
          failed_queue st !! job_id = Some sc →
          ¬ (0 ≤ sc ≤ cutoff_time)) →
   get_job job_id st' = get_job job_id st ∧
   completed_queue st' !! job_id = completed_queue st !! job_id ∧
   failed_queue st' !! job_id = failed_queue st !! job_id) ∧
  idempotency st' = idempotency st ∧
  pending_queue st' = pending_queue st ∧
  processing_queue st' = processing_queue st ∧
  retry_queue st' = retry_queue st ∧
  scheduled_queue st' = scheduled_queue st.
Proof.
  intros cutoff_time st'. subst st'. rewrite cleanup_old_jobs_eq.
  fold cutoff_time. unfold get_job. simpl.
  rewrite !foldl_delete_lookup, !lookup_zremrangebyscore.
  assert (∀ (m : zset) sc, m !! job_id = Some sc → 0 ≤ sc ≤ cutoff_time →
            in_range 0 cutoff_time (job_id, sc) = true) as Hin.
  { intros m sc _ ?. unfold in_range. simpl. lia. }
  assert (∀ sc, ¬ (0 ≤ sc ≤ cutoff_time) →
            in_range 0 cutoff_time (job_id, sc) = false) as Hout.
  { intros sc ?. unfold in_range. simpl. lia. }
  split_and!; try done.
  - intros sc [Hq|Hq] Hr.
    + rewrite (bool_decide_eq_true_2
                 (job_id ∈ zrangebyscore 0 cutoff_time (completed_queue st))).
      * by case_bool_decide.
      * apply elem_of_zrangebyscore. eauto.
    + rewrite (bool_decide_eq_true_2
                 (job_id ∈ zrangebyscore 0 cutoff_time (failed_queue st)));
        [done|].
      apply elem_of_zrangebyscore. eauto.
  - intros sc Hq Hr. rewrite Hq. by erewrite Hin.
  - intros sc Hq Hr. rewrite Hq. by erewrite Hin.
  - intros Hyoung. split_and!.
    + rewrite !bool_decide_eq_false_2; [done|..];
        rewrite elem_of_zrangebyscore; intros (sc & Hq & Hr);
        eapply Hyoung; eauto.
    + destruct (completed_queue st !! job_id) as [sc|] eqn:Hq; [|done].
      rewrite Hout; [done|]. eauto.
    + destruct (failed_queue st !! job_id) as [sc|] eqn:Hq; [|done].
      rewrite Hout; [done|]. eauto.
Qed.

Lemma cleanup_old_jobs_spec_witness :
  get_job "job-1"
    (cleanup_old_jobs 7 (t0 + secs (8 * 24 * 60 * 60)) st_completed) = None.
Proof.
  apply (cleanup_old_jobs_spec 7 (t0 + secs (8 * 24 * 60 * 60)) st_completed
           "job-1") with (sc := secs 1700000002).
  - left. by vm_compute.
  - by vm_compute.
Defined.

(** ** Rate-limit deferral *)

(** C4, as stated, fails: 0.4 seconds before the window closes the
    limiter still rejects the call, the [TTL] of the counter rounds
    to 0, no reset time is known, and [process_job] raises: the rejection
    is recorded as a failure and consumes a retry. *)
Lemma rate_limit_failure_counterexample :
  ¬ rate_limit_defers utc_timestamp {[ "social_media_post" := ok_handler ]}
      linkedin_in_flight float_1_0 t_closing st_limited.
Proof.
  intros H. destruct H as (job' & Hget & Hrc & _); [by vm_compute..|].
  vm_compute in Hget. injection Hget as <-. vm_compute in Hrc. discriminate.
Qed.

Section deferral.

Variable timestamp : Z → Z.

Lemma is_allowed_false platform user_id now c c' :
  is_allowed platform user_id now c = (false, c') → c' = c.
Proof.
  unfold is_allowed. destruct (limits_get platform); [|congruence].
  destruct (redis_get _ _ _); [|congruence].
  destruct (_ <=? _); congruence.
Qed.

(** C4, amended: when the limiter rejects the call and reports a reset
    time (the [TTL] of the counter is positive), [process_job] returns
    true, stores the job with status PENDING, [scheduled_at] set to the
    reset time plus 60 seconds and its retry count and error message as
    they were, and inserts it into the scheduled structure under that
    time; nothing else is written, whatever the handlers are.  When the
    limiter rejects the call and reports no reset time, the rejection is
    handled as a failure of the attempt, through [fail_job]: the call
    returns false when [fail_job] returns, and raises what [fail_job]
    raises. *)
Theorem process_job_rate_limited (job_handlers : gmap string handler_t)
    (job : QueueJob) (jitter : float) (now : Z) (st : State) :
  let platform := payload_get "platform" (payload job) in
  let user_id := payload_get "user_id" (payload job) in
  truthy platform = true → truthy user_id = true →
  (is_allowed platform (py_str user_id) now (rate_limits st)).1 = false →
  (∀ reset_time,
     get_reset_time platform (py_str user_id) now (rate_limits st)
       = Some reset_time →
     ∃ job' st',
       process_job timestamp job_handlers job jitter now st
         = (Returns true, st') ∧
       get_job (id job) st' = Some job' ∧
       job' = set_status PENDING
                (set_scheduled_at (dt_add reset_time (secs 60)) job) ∧
       retry_count job' = retry_count job ∧
       error_message job' = error_message job ∧
       status job' = PENDING ∧
       scheduled_at job' = dt_add reset_time (secs 60) ∧
       scheduled_queue st' =
         zadd (id job)
           (dt_timestamp timestamp (dt_add reset_time (secs 60)))
           (scheduled_queue st) ∧
       (∀ k, k ≠ id job → get_job k st' = get_job k st) ∧
       pending_queue st' = pending_queue st ∧
       processing_queue st' = processing_queue st ∧
       retry_queue st' = retry_queue st ∧
       completed_queue st' = completed_queue st ∧
       failed_queue st' = failed_queue st ∧
       idempotency st' = idempotency st ∧
       rate_limits st' = rate_limits st) ∧
  (get_reset_time platform (py_str user_id) now (rate_limits st) = None →
   process_job timestamp job_handlers job jitter now st =
     match
       fail_job timestamp (id job)
         ("Rate limit exceeded for " +:+ py_str platform
          +:+ ". Resets at None") jitter now st
     with
     | (Returns _, st') => (Returns false, st')
     | (Raises e, st') => (Raises e, st')
     end).
Proof.
  intros platform user_id Hp Hu Hrej.
  destruct (is_allowed platform (py_str user_id) now (rate_limits st))
    as [ok c] eqn:Hal.
  simpl in Hrej. subst ok. pose proof (is_allowed_false _ _ _ _ _ Hal) as ->.
  assert (set_rate_limits (rate_limits st) st = st) as Hst by by destruct st.
  unfold process_job. fold platform. fold user_id.
  rewrite Hp, Hu, Hal. simpl andb. cbv iota. cbv beta. rewrite Hst.
  split.
  - intros reset_time Hreset. simpl rate_limits. rewrite Hreset.
    do 2 eexists. split; [done|]. simpl. unfold get_job. simpl.
    rewrite lookup_insert_eq. split_and!; try done.
    intros k Hk. by rewrite lookup_insert_ne.
  - intros Hreset. simpl rate_limits. by rewrite Hreset.
Qed.

End deferral.

Lemma process_job_rate_limited_witness :
  ∃ job' st',
    process_job utc_timestamp {[ "social_media_post" := ok_handler ]}
      linkedin_in_flight float_1_0 (t0 + secs 10) st_limited
      = (Returns true, st') ∧
    get_job "job-li" st' = Some job' ∧
    retry_count job' = 0 ∧
    status job' = PENDING ∧
    scheduled_at job' = Naive (t0 + secs 3600 + secs 60).
Proof.
  destruct (process_job_rate_limited utc_timestamp
              {[ "social_media_post" := ok_handler ]}
              linkedin_in_flight float_1_0 (t0 + secs 10) st_limited)
    as [Hdefer _]; [by vm_compute..|].
  destruct (Hdefer (Naive (t0 + secs 3600)))
    as (job' & st' & Hrun & Hget & _ & Hrc
                                         & _ & Hst & Hsch & _);
    [by vm_compute|].
  exists job', st'. split_and!; [exact Hrun|exact Hget|exact Hrc|exact Hst|].
  rewrite Hsch. reflexivity.
Defined.

(** ** Platforms without a configured limit *)

Lemma limits_get_None (platform : pyval) :
  limits_get platform = None ↔
  platform ≠ PStr "twitter" ∧ platform ≠ PStr "instagram" ∧
  platform ≠ PStr "facebook" ∧ platform ≠ PStr "linkedin".
Proof.
  destruct platform as [|b|z|s]; simpl; try (split; [intros _|]; done).
  unfold limits. split.
  - intros Hs. split_and!; intros [= ->]; by vm_compute in Hs.
  - intros (H1 & H2 & H3 & H4).
    rewrite !lookup_insert_ne by congruence. apply lookup_empty.
Qed.

(** C10: for a platform that is none of twitter, instagram, facebook and
    linkedin, [is_allowed] answers true and leaves every counter as it
    was, [get_reset_time] answers [None], and [process_job] takes a job
    for that platform straight to its handler: the outcome is that of the
    handler lookup and call, on a store the limiter has not touched; a
    failure goes through [fail_job], and the call returns false when
    [fail_job] returns and raises what it raises. *)
Theorem unconfigured_platform_not_throttled (platform : pyval) :
  platform ≠ PStr "twitter" → platform ≠ PStr "instagram" →
  platform ≠ PStr "facebook" → platform ≠ PStr "linkedin" →
  (∀ user_id now c,
     is_allowed platform user_id now c = (true, c) ∧
     get_reset_time platform user_id now c = None) ∧
  (∀ timestamp job_handlers job jitter now st,
     payload_get "platform" (payload job) = platform →
     process_job timestamp job_handlers job jitter now st =
     match job_handlers !! job_type job with
     | None =>
         match
           fail_job timestamp (id job)
             ("No handler registered for job type: " +:+ job_type job)
             jitter now st
         with
         | (Returns _, st') => (Returns false, st')
         | (Raises e, st') => (Raises e, st')
         end
     | Some handler =>
         match handler (payload job) with
         | inr result => (Returns true, complete_job (id job) result now st)
         | inl e =>
             match fail_job timestamp (id job) e jitter now st with
             | (Returns _, st') => (Returns false, st')
             | (Raises e, st') => (Raises e, st')
             end
         end
     end).
Proof.
  intros H1 H2 H3 H4.
  assert (limits_get platform = None) as Hnone by by apply limits_get_None.
  split.
  - intros user_id now c. unfold is_allowed, get_reset_time.
    by rewrite Hnone.
  - intros timestamp job_handlers job jitter now st Hp.
    unfold process_job. rewrite Hp. unfold is_allowed. rewrite Hnone.
    assert (set_rate_limits (rate_limits st) st = st) as -> by by destruct st.
    by destruct (truthy platform && truthy _).
Qed.

Lemma unconfigured_platform_not_throttled_witness :
  is_allowed (PStr "mastodon") "7" t0 (rate_limits st_limited)
    = (true, rate_limits st_limited) ∧
  get_reset_time (PStr "mastodon") "7" t0 (rate_limits st_limited) = None.
Proof.
  apply (unconfigured_platform_not_throttled (PStr "mastodon"));
    discriminate.
Defined.

(** ** Doubles: rounding to nearest even *)

Lemma digits2_pos_bounds (p : positive) :
  2 ^ (Zpos (digits2_pos p) - 1) ≤ Zpos p < 2 ^ Zpos (digits2_pos p).
Proof.
  induction p as [p IH|p IH|]; simpl digits2_pos.
  - rewrite Pos2Z.inj_succ.
    replace (Z.succ (Zpos (digits2_pos p)) - 1) with (Zpos (digits2_pos p) - 1 + 1) by lia.
    rewrite Z.pow_succ_r by lia. rewrite Z.pow_add_r by lia. lia.
  - rewrite Pos2Z.inj_succ.
    replace (Z.succ (Zpos (digits2_pos p)) - 1) with (Zpos (digits2_pos p) - 1 + 1) by lia.
    rewrite Z.pow_succ_r by lia. rewrite Z.pow_add_r by lia. lia.
  - simpl. lia.
Qed.

Lemma digits2_pos_unique (p : positive) (d : Z) :
  2 ^ (d - 1) ≤ Zpos p < 2 ^ d → Zpos (digits2_pos p) = d.
Proof.
  intros [Hlo Hhi]. pose proof (digits2_pos_bounds p) as [Hlo' Hhi'].
  assert (0 < d) as Hd.
  { destruct (Z.le_gt_cases d 0) as [Hle|]; [|done].
    pose proof (Z.pow_le_mono_r 2 d 0 ltac:(lia) Hle) as Hp.
    change (2 ^ 0) with 1 in Hp. lia. }
  assert (d - 1 < Zpos (digits2_pos p)) as H1.
  { apply (Z.pow_lt_mono_r_iff 2); lia. }
  assert (Zpos (digits2_pos p) - 1 < d) as H2.
  { apply (Z.pow_lt_mono_r_iff 2); lia. }
  lia.
Qed.

Lemma shr_1_inv (m n : Z) (mrs : shr_record) :
  0 ≤ n → shr_inv m n mrs → shr_inv m (n + 1) (shr_1 mrs).
Proof.
  intros Hn. destruct mrs as [q r s]. unfold shr_inv. simpl.
  rewrite Z.pow_add_r by lia. change (2 ^ 1) with 2.
  assert (0 < 2 ^ n) as HP by (apply Z.pow_pos_nonneg; lia).
  set (P := 2 ^ n) in *. clearbody P.
  intros (Hq & HR & Hr & Hs).
  destruct q as [|[p|p|]|]; try lia; simpl;
    (split; [lia|]); (split; [lia|]);
    destruct r, s; simpl; split; split; intros; try done; try lia.
  all: try (destruct Hr as [Hr1 Hr2]; destruct Hs as [Hs1 Hs2];
            first [specialize (Hr1 eq_refl) | idtac];
            first [specialize (Hs1 eq_refl) | idtac]; lia).
Qed.

Lemma iter_pos_shr_inv (p : positive) :
  ∀ m n mrs, 0 ≤ n → shr_inv m n mrs →
    shr_inv m (n + Zpos p) (SpecFloat.iter_pos shr_1 p mrs).
Proof.
  induction p as [p IH|p IH|]; intros m n mrs Hn Hinv; simpl.
  - replace (n + Zpos p~1) with (n + 1 + Zpos p + Zpos p) by lia.
    apply IH; [lia|]. apply IH; [lia|]. by apply shr_1_inv.
  - replace (n + Zpos p~0) with (n + Zpos p + Zpos p) by lia.
    apply IH; [lia|]. by apply IH.
  - by apply shr_1_inv.
Qed.

Lemma shr_inv_init (m : Z) :
  0 ≤ m → shr_inv m 0 (Build_shr_record m false false).
Proof. intros Hm. unfold shr_inv. simpl. split_and!; try lia; split; try done; lia. Qed.

(** Rounding to nearest even after a shift by [n] bits: the result is the
    quotient or its successor, and no integer multiple of [2^n] lies
    strictly between the exact value and the rounded one. *)
Lemma round_nearest_even_inv (m n : Z) (mrs : shr_record) :
  0 ≤ n → shr_inv m n mrs →
  let mr := round_nearest_even (shr_m mrs) (loc_of_shr_record mrs) in
  shr_m mrs ≤ mr ≤ shr_m mrs + 1 ∧
  (∀ l, l * 2 ^ n ≤ m → l ≤ mr) ∧ (∀ u, m ≤ u * 2 ^ n → mr ≤ u).
Proof.
  intros Hn. destruct mrs as [q r s]. unfold shr_inv. simpl.
  assert (0 < 2 ^ n) as HP by (apply Z.pow_pos_nonneg; lia).
  set (P := 2 ^ n) in *. clearbody P.
  intros (Hq & HR & Hr & Hs).
  assert (∀ l, l * P ≤ m → l ≤ q) as Hlow by (intros l Hl; nia).
  assert (∀ u, m ≤ u * P → q ≤ u) as Hup by (intros u Hu; nia).
  assert (∀ u, m ≤ u * P → m ≠ q * P → q + 1 ≤ u) as Hup1
    by (intros u Hu Hne; nia).
  destruct r, s; simpl.
  - destruct Hr as [Hr _]. specialize (Hr eq_refl).
    split; [lia|]. split; intros x Hx; [specialize (Hlow x Hx); lia|].
    apply Hup1; [done|lia].
  - destruct Hr as [Hr _]. specialize (Hr eq_refl).
    destruct (Z.even q); (split; [lia|]); split; intros x Hx;
      try (specialize (Hlow x Hx); lia); try (apply Hup; done).
    apply Hup1; [done|lia].
  - split; [lia|]. split; intros x Hx; [by apply Hlow|by apply Hup].
  - split; [lia|]. split; intros x Hx; [by apply Hlow|by apply Hup].
Qed.

Lemma fexp_normal (E : Z) : -1021 ≤ E → fexp 53 1024 E = E - 53.
Proof. unfold fexp, emin. lia. Qed.

(** A mantissa of 53 bits with an exponent in range is left as it is. *)
Lemma binary_round_aux_exact (s : bool) (m : positive) (e : Z) :
  Zpos (digits2_pos m) = 53 → -1074 ≤ e ≤ 971 →
  binary_round_aux 53 1024 s (Zpos m) e loc_Exact = S754_finite s m e.
Proof.
  intros Hd He. unfold binary_round_aux, shr_fexp. simpl Zdigits2.
  rewrite Hd, fexp_normal by lia.
  replace (53 + e - 53 - e) with 0 by lia. simpl.
  rewrite Hd, fexp_normal by lia.
  replace (53 + e - 53 - e) with 0 by lia. simpl.
  change (1024 - 53) with 971.
  replace (e <=? 971) with true by (symmetry; apply Z.leb_le; lia). done.
Qed.

(** A longer mantissa is shifted right by [n] bits and rounded to nearest
    even.  The value [mr * 2^(e+n)] of the result is the nearest one; when
    the rounded mantissa reaches [2^53] the exponent goes up by one. *)
Lemma binary_round_aux_normal (s : bool) (pm : positive) (e : Z) :
  let n := Zpos (digits2_pos pm) - 53 in
  0 < n → -1074 ≤ e + n →
  ∃ (m' : positive) (e' : Z),
    (binary_round_aux 53 1024 s (Zpos pm) e loc_Exact =
       if e' <=? 971 then S754_finite s m' e' else S754_infinity s) ∧
    e + n ≤ e' ≤ e + n + 1 ∧
    2 ^ 52 ≤ Zpos m' < 2 ^ 53 ∧
    (∀ l, l * 2 ^ n ≤ Zpos pm → l ≤ Zpos m' * 2 ^ (e' - (e + n))) ∧
    (∀ u, Zpos pm ≤ u * 2 ^ n → Zpos m' * 2 ^ (e' - (e + n)) ≤ u).
Proof.
  intros n Hn He.
  pose proof (digits2_pos_bounds pm) as Hdig.
  replace (Zpos (digits2_pos pm) - 1) with (n + 52) in Hdig by lia.
  replace (Zpos (digits2_pos pm)) with (n + 53) in Hdig by lia.
  unfold binary_round_aux, shr_fexp. simpl Zdigits2.
  change (1024 - 53) with 971.
  rewrite fexp_normal by lia.
  replace (Zpos (digits2_pos pm) + e - 53 - e) with n by lia.
  destruct n as [|p|p] eqn:En; try lia. unfold shr at 1.
  pose proof (iter_pos_shr_inv p (Zpos pm) 0 _ ltac:(lia)
                (shr_inv_init (Zpos pm) ltac:(lia))) as Hinv.
  simpl shr_record_of_loc.
  set (mrs := SpecFloat.iter_pos shr_1 p _) in *. rewrite Z.add_0_l in Hinv.
  pose proof (round_nearest_even_inv (Zpos pm) (Zpos p) mrs ltac:(lia) Hinv)
    as Hr.
  cbv zeta in Hr. destruct Hr as (Hq & Hlow & Hup).
  set (mr := round_nearest_even _ _) in *.
  assert (2 ^ 52 ≤ shr_m mrs < 2 ^ 53) as Hqb.
  { destruct Hinv as (_ & HR & _). rewrite !Z.pow_add_r in Hdig by lia.
    assert (0 < 2 ^ Zpos p) by (apply Z.pow_pos_nonneg; lia). nia. }
  destruct (Z.eq_dec mr (2 ^ 53)) as [Hcarry|Hnc].
  - exists (Z.to_pos (2 ^ 52)), (e + Zpos p + 1).
    rewrite Hcarry. split.
    + change (Zdigits2 (2 ^ 53)) with 54.
      rewrite fexp_normal by lia.
      replace (54 + (e + Zpos p) - 53 - (e + Zpos p)) with 1 by lia.
      reflexivity.
    + split; [lia|]. split; [done|].
      replace (e + Zpos p + 1 - (e + Zpos p)) with 1 by lia.
      change (Zpos (Z.to_pos (2 ^ 52)) * 2 ^ 1) with (2 ^ 53).
      rewrite <-Hcarry. done.
  - assert (2 ^ 52 ≤ mr < 2 ^ 53) as Hmr by lia.
    destruct mr as [|pmr|pmr] eqn:Emr; try lia.
    exists pmr, (e + Zpos p).
    assert (Zpos (digits2_pos pmr) = 53) as Hd
      by (apply digits2_pos_unique; done).
    split.
    + simpl Zdigits2. rewrite Hd, fexp_normal by lia.
      replace (53 + (e + Zpos p) - 53 - (e + Zpos p)) with 0 by lia.
      reflexivity.
    + split; [lia|]. split; [done|].
      replace (e + Zpos p - (e + Zpos p)) with 0 by lia.
      rewrite Z.mul_1_r. done.
Qed.

Lemma iter_xO_Z (m d : positive) :
  Zpos (Pos.iter xO m d) = Zpos m * 2 ^ Zpos d.
Proof.
  induction d as [|d IH] using Pos.peano_ind.
  - simpl. lia.
  - rewrite Pos.iter_succ, Pos2Z.inj_xO, IH, Pos2Z.inj_succ.
    rewrite Z.pow_succ_r by lia. lia.
Qed.

(** [float(d)] is exact below [2^53]. *)
Lemma float_of_int_small (d : Z) :
  0 < d < 2 ^ 53 →
  ∃ (md : positive) (ed : Z),
    float_of_int d = Returns (S754_finite false md ed) ∧
    2 ^ 52 ≤ Zpos md < 2 ^ 53 ∧ -52 ≤ ed ≤ 0 ∧ Zpos md = d * 2 ^ (- ed).
Proof.
  intros Hd. destruct d as [|pd|pd]; try lia.
  pose proof (digits2_pos_bounds pd) as Hdig.
  set (dg := Zpos (digits2_pos pd)) in *.
  assert (1 ≤ dg ≤ 53) as Hdg.
  { split; [unfold dg; lia|].
    destruct (Z.le_gt_cases dg 53) as [|Hgt]; [done|].
    assert (2 ^ 53 ≤ 2 ^ (dg - 1)) by (apply Z.pow_le_mono_r; lia). lia. }
  unfold float_of_int, binary_normalize, binary_round, shl_align.
  fold dg. rewrite Z.add_0_r, fexp_normal by lia. rewrite Z.sub_0_r.
  destruct (dg - 53) as [|c|c] eqn:Ec; try lia.
  - assert (dg = 53) as Hdg53 by lia. rewrite Hdg53 in Hdig.
    rewrite binary_round_aux_exact by (fold dg; lia).
    exists pd, 0. split; [done|]. simpl. split; [done|]. lia.
  - assert (Zpos (Pos.iter xO pd c) = Zpos pd * 2 ^ Zpos c) as Hsh
      by apply iter_xO_Z.
    assert (2 ^ 52 ≤ Zpos (Pos.iter xO pd c) < 2 ^ 53) as Hb.
    { rewrite Hsh.
      replace 52 with (dg - 1 + Zpos c) by lia.
      replace 53 with (dg + Zpos c) by lia.
      rewrite !Z.pow_add_r by lia.
      assert (0 < 2 ^ Zpos c) by (apply Z.pow_pos_nonneg; lia). nia. }
    rewrite binary_round_aux_exact.
    + exists (Pos.iter xO pd c), (Z.neg c). split; [done|].
      split; [done|]. split; [lia|]. rewrite Hsh. done.
    + by apply digits2_pos_unique.
    + lia.
Qed.

(** From [2^53] on, [float(d)] is [d] rounded to 53 bits; it overflows
    when the exponent of the result exceeds 971. *)
Lemma float_of_int_large (d : Z) :
  2 ^ 53 ≤ d →
  ∃ (md : positive) (ed : Z),
    float_of_int d =
      (if ed <=? 971 then Returns (S754_finite false md ed)
       else Raises OverflowError) ∧
    2 ^ 52 ≤ Zpos md < 2 ^ 53 ∧ 1 ≤ ed ∧
    (∀ N, d < 2 ^ N → ed ≤ N - 52) ∧ (∀ N, 0 ≤ N → 2 ^ N ≤ d → N - 52 ≤ ed).
Proof.
  intros Hd. destruct d as [|pd|pd]; try lia.
  pose proof (digits2_pos_bounds pd) as Hdig.
  set (dg := Zpos (digits2_pos pd)) in *.
  assert (54 ≤ dg) as Hdg.
  { destruct (Z.le_gt_cases 54 dg) as [|Hlt]; [done|].
    assert (2 ^ dg ≤ 2 ^ 53) by (apply Z.pow_le_mono_r; lia). lia. }
  unfold float_of_int, binary_normalize, binary_round, shl_align.
  fold dg. rewrite Z.add_0_r, fexp_normal by lia. rewrite Z.sub_0_r.
  destruct (dg - 53) as [|c|c] eqn:Ec; try lia.
  destruct (binary_round_aux_normal false pd 0) as (m' & e' & Hr & He & Hm & _);
    [fold dg; lia..|].
  fold dg in He. rewrite Hr. exists m', e'. split.
  { by destruct (e' <=? 971). }
  split; [done|]. split; [lia|]. split.
  - intros N HN.
    assert (dg - 1 < N); [|lia].
    apply (Z.pow_lt_mono_r_iff 2); [lia| |lia].
    destruct (Z.le_gt_cases 0 N) as [|Hneg]; [done|].
    rewrite Z.pow_neg_r in HN by done. lia.
  - intros N HN0 HN.
    assert (N < dg); [|lia].
    apply (Z.pow_lt_mono_r_iff 2); lia.
Qed.

(** The order of two positive doubles. *)
Lemma SFleb_finite (m1 m2 : positive) (e1 e2 : Z) :
  SFleb (S754_finite false m1 e1) (S754_finite false m2 e2) = true ↔
  e1 < e2 ∨ (e1 = e2 ∧ Zpos m1 ≤ Zpos m2).
Proof.
  unfold SFleb, SFcompare.
  destruct (Z.compare_spec e1 e2) as [He|He|He].
  - rewrite Pos.compare_cont_spec. unfold Pos.switch_Eq.
    destruct (Pos.compare_spec m1 m2) as [Hm|Hm|Hm];
      [subst m1|apply Pos2Z.pos_lt_pos in Hm..];
      split; try done; intros; try lia.
  - split; [lia|done].
  - split; [done|lia].
Qed.

Lemma valid_binary_normal (m : positive) (e : Z) :
  valid_binary 53 1024 (S754_finite false m e) = true → -1074 < e →
  2 ^ 52 ≤ Zpos m < 2 ^ 53.
Proof.
  unfold valid_binary, bounded, canonical_mantissa, fexp, emin.
  intros Hv He. apply andb_prop in Hv as [Hc _]. apply Z.eqb_eq in Hc.
  assert (Zpos (digits2_pos m) = 53) as Hd by lia.
  pose proof (digits2_pos_bounds m) as Hb. rewrite Hd in Hb. exact Hb.
Qed.

(** A jitter sample is a positive double with a 53-bit mantissa and
    exponent -53 (from 0.75 up to 1) or -52 (from 1 to 1.25). *)
Lemma is_jitter_inv (x : float) :
  is_jitter x →
  ∃ (mj : positive) (ej : Z),
    x = S754_finite false mj ej ∧ 2 ^ 52 ≤ Zpos mj < 2 ^ 53 ∧
    -53 ≤ ej ≤ -52 ∧
    3 * 2 ^ (- ej - 2) ≤ Zpos mj ≤ 5 * 2 ^ (- ej - 2).
Proof.
  intros (Hv & Hlo & Hhi).
  destruct x as [s|s| |s mj ej]; try (destruct s); try discriminate.
  unfold float_0_75 in Hlo. unfold float_1_25 in Hhi.
  apply SFleb_finite in Hlo, Hhi.
  assert (-53 ≤ ej ≤ -52) as He by lia.
  pose proof (valid_binary_normal mj ej Hv ltac:(lia)) as Hb.
  exists mj, ej. split; [done|]. split; [done|]. split; [done|].
  assert (ej = -53 ∨ ej = -52) as [->| ->] by lia.
  - change (3 * 2 ^ (- -53 - 2)) with 6755399441055744.
    change (5 * 2 ^ (- -53 - 2)) with 11258999068426240.
    change (2 ^ 53) with 9007199254740992 in Hb. lia.
  - change (3 * 2 ^ (- -52 - 2)) with 3377699720527872.
    change (5 * 2 ^ (- -52 - 2)) with 5629499534213120.
    change (2 ^ 52) with 4503599627370496 in Hb. lia.
Qed.

(** The product of two positive doubles with 53-bit mantissas: the exact
    product of the mantissas, of 105 or 106 bits, is shifted by [n = 52]
    or [53] bits and rounded to nearest even. *)
Lemma float_mul_normal (md mj : positive) (ed ej : Z) :
  2 ^ 52 ≤ Zpos md < 2 ^ 53 → 2 ^ 52 ≤ Zpos mj < 2 ^ 53 →
  -1074 ≤ ed + ej + 52 →
  ∃ (m' : positive) (e' n : Z),
    52 ≤ n ≤ 53 ∧
    float_mul (S754_finite false md ed) (S754_finite false mj ej) =
      (if e' <=? 971 then S754_finite false m' e' else S754_infinity false) ∧
    ed + ej + n ≤ e' ≤ ed + ej + n + 1 ∧
    2 ^ 52 ≤ Zpos m' < 2 ^ 53 ∧
    (∀ l, l * 2 ^ n ≤ Zpos md * Zpos mj →
          l ≤ Zpos m' * 2 ^ (e' - (ed + ej + n))) ∧
    (∀ u, Zpos md * Zpos mj ≤ u * 2 ^ n →
          Zpos m' * 2 ^ (e' - (ed + ej + n)) ≤ u).
Proof.
  intros Hmd Hmj He. unfold float_mul, SFmul. simpl xorb.
  pose proof (digits2_pos_bounds (md * mj)) as Hdig.
  set (dg := Zpos (digits2_pos (md * mj))) in *.
  rewrite Pos2Z.inj_mul in Hdig.
  assert (2 ^ 104 ≤ Zpos md * Zpos mj < 2 ^ 106) as Hprod.
  { change (2 ^ 104) with (2 ^ 52 * 2 ^ 52).
    change (2 ^ 106) with (2 ^ 53 * 2 ^ 53). nia. }
  assert (105 ≤ dg ≤ 106) as Hdg.
  { split.
    - assert (104 < dg); [|lia]. apply (Z.pow_lt_mono_r_iff 2); lia.
    - assert (dg - 1 < 106); [|lia]. apply (Z.pow_lt_mono_r_iff 2); lia. }
  destruct (binary_round_aux_normal false (md * mj) (ed + ej))
    as (m' & e' & Hr & He' & Hm' & Hlow & Hup); [fold dg; lia..|].
  fold dg in Hr, He', Hlow, Hup. rewrite Pos2Z.inj_mul in Hlow, Hup.
  exists m', e', (dg - 53). split; [lia|]. done.
Qed.

(** [int(x)] of a double of at least [2^-40 * 2^52] is at least 4096. *)
Lemma int_of_float_large (m : positive) (e : Z) :
  2 ^ 52 ≤ Zpos m → -40 ≤ e →
  ∃ n, int_of_float (S754_finite false m e) = Returns n ∧ 4096 ≤ n.
Proof.
  intros Hm He. eexists. split; [reflexivity|]. simpl cond_Zopp.
  destruct (0 <=? e) eqn:E.
  - apply Z.leb_le in E.
    assert (1 ≤ 2 ^ e) by (apply (Z.pow_le_mono_r 2 0 e); lia).
    change (2 ^ 52) with 4503599627370496 in Hm. nia.
  - apply Z.leb_gt in E.
    apply Z.div_le_lower_bound; [apply Z.pow_pos_nonneg; lia|].
    assert (2 ^ (- e) ≤ 2 ^ 40) by (apply Z.pow_le_mono_r; lia).
    change (2 ^ 52) with (2 ^ 40 * 4096) in Hm. nia.
Qed.

(** [int(x)] of a double whose value is [mr * 2^-k]. *)
Lemma int_of_float_floor (m : positive) (e k : Z) :
  e < 0 → - k ≤ e →
  int_of_float (S754_finite false m e) =
    Returns ((Zpos m * 2 ^ (e + k)) / 2 ^ k).
Proof.
  intros He Hk. unfold int_of_float. simpl cond_Zopp.
  replace (0 <=? e) with false by (symmetry; apply Z.leb_gt; lia).
  f_equal. replace k with (- e + (e + k)) at 2 by lia.
  rewrite (Z.pow_add_r 2 (- e) (e + k)) by lia.
  rewrite Z.div_mul_cancel_r; [done|apply Z.pow_nonzero; lia..].
Qed.

(** For a retry count of at least 1 the power is an int, and so is the
    backoff before the jitter. *)
Lemma calculate_retry_delay_int (jitter : float) (retry_count base_delay : Z) :
  1 ≤ retry_count →
  _calculate_retry_delay jitter retry_count base_delay =
    x ← float_of_int (base_delay * 2 ^ (retry_count - 1));
    delay ← int_of_float (float_mul x jitter);
    Returns (Z.min delay 3600).
Proof.
  intros Hrc. unfold _calculate_retry_delay, pow2.
  replace (0 <=? retry_count - 1) with true by (symmetry; apply Z.leb_le; lia).
  simpl. by destruct (float_of_int _).
Qed.

(** The jittered backoff of a product [d] below [2^13], as computed in
    doubles and truncated, lies between [0.75 d - 1] and [1.25 d]. *)
Lemma jittered_small (d : Z) (mj : positive) (ej : Z) :
  0 < d < 2 ^ 13 →
  2 ^ 52 ≤ Zpos mj < 2 ^ 53 → -53 ≤ ej ≤ -52 →
  3 * 2 ^ (- ej - 2) ≤ Zpos mj ≤ 5 * 2 ^ (- ej - 2) →
  ∃ q, (x ← float_of_int d;
        int_of_float (float_mul x (S754_finite false mj ej))) = Returns q ∧
    0 ≤ q ∧ 3 * d < 4 * (q + 1) ∧ 4 * q ≤ 5 * d.
Proof.
  intros Hd Hmj Hej Hjb.
  destruct (float_of_int_small d) as (md & ed & Hf & Hmd & Hed & Hval);
    [change (2 ^ 53) with (2 ^ 13 * 2 ^ 40); lia|].
  rewrite Hf. cbn [mbind outcome_bind].
  assert (ed ≤ -40) as Hed40.
  { destruct (Z.le_gt_cases ed (-40)) as [|Hgt]; [done|].
    assert (2 ^ (- ed) ≤ 2 ^ 39) by (apply Z.pow_le_mono_r; lia).
    change (2 ^ 52) with (2 ^ 13 * 2 ^ 39) in Hmd. nia. }
  destruct (float_mul_normal md mj ed ej)
    as (m' & e' & n & Hn & Hmul & He' & Hm' & Hlow & Hup); [done..|lia|].
  rewrite Hmul.
  replace (e' <=? 971) with true by (symmetry; apply Z.leb_le; lia).
  set (k := - (ed + ej + n)).
  rewrite (int_of_float_floor m' e' k) by (unfold k; lia).
  replace (e' + k) with (e' - (ed + ej + n)) by (unfold k; lia).
  set (mr := Zpos m' * 2 ^ (e' - (ed + ej + n))) in *.
  eexists. split; [reflexivity|].
  assert (0 < 2 ^ (k - 2)) as HPk by (apply Z.pow_pos_nonneg; unfold k; lia).
  assert (2 ^ k = 4 * 2 ^ (k - 2)) as Hk4.
  { replace k with (2 + (k - 2)) at 1 by lia.
    rewrite Z.pow_add_r by (unfold k; lia). done. }
  assert (2 ^ (k - 2) * 2 ^ n = 2 ^ (- ed) * 2 ^ (- ej - 2)) as Hsplit.
  { rewrite <-!Z.pow_add_r by (unfold k; lia). f_equal. unfold k. lia. }
  assert (0 < 2 ^ (- ej - 2)) as HA by (apply Z.pow_pos_nonneg; lia).
  set (Pk := 2 ^ (k - 2)) in *. set (A := 2 ^ (- ej - 2)) in *.
  assert (3 * d * Pk ≤ mr) as Hl.
  { apply Hlow.
    replace (3 * d * Pk * 2 ^ n) with (3 * d * (Pk * 2 ^ n)) by ring.
    rewrite Hsplit.
    replace (3 * d * (2 ^ (- ed) * A)) with (d * 2 ^ (- ed) * (3 * A)) by ring.
    rewrite <-Hval. apply Z.mul_le_mono_nonneg_l; lia. }
  assert (mr ≤ 5 * d * Pk) as Hu.
  { apply Hup.
    replace (5 * d * Pk * 2 ^ n) with (5 * d * (Pk * 2 ^ n)) by ring.
    rewrite Hsplit.
    replace (5 * d * (2 ^ (- ed) * A)) with (d * 2 ^ (- ed) * (5 * A)) by ring.
    rewrite <-Hval. apply Z.mul_le_mono_nonneg_l; lia. }
  rewrite Hk4.
  pose proof (Z.mul_div_le mr (4 * Pk) ltac:(lia)) as Hq1.
  pose proof (Z.mul_succ_div_gt mr (4 * Pk) ltac:(lia)) as Hq2.
  set (q := mr / (4 * Pk)) in *. clearbody q mr Pk.
  split_and!; nia.
Qed.

(** From [2^13] on, the jittered backoff is at least 4096, or the
    conversion overflows. *)
Lemma jittered_large (d : Z) (mj : positive) (ej : Z) :
  2 ^ 13 ≤ d < 2 ^ 1021 →
  2 ^ 52 ≤ Zpos mj < 2 ^ 53 → -53 ≤ ej ≤ -52 →
  ∃ q, (x ← float_of_int d;
        int_of_float (float_mul x (S754_finite false mj ej))) = Returns q ∧
    4096 ≤ q.
Proof.
  intros Hd Hmj Hej.
  assert (∃ (md : positive) (ed : Z),
            float_of_int d = Returns (S754_finite false md ed) ∧
            2 ^ 52 ≤ Zpos md < 2 ^ 53 ∧ -39 ≤ ed ≤ 969)
    as (md & ed & Hf & Hmd & Hed).
  { destruct (Z.lt_ge_cases d (2 ^ 53)) as [Hsmall|Hbig].
    - destruct (float_of_int_small d) as (md & ed & Hf & Hmd & Hed & Hval);
        [lia|].
      exists md, ed. split; [done|]. split; [done|].
      destruct (Z.le_gt_cases (-39) ed) as [|Hlt]; [lia|].
      assert (2 ^ 40 ≤ 2 ^ (- ed)) by (apply Z.pow_le_mono_r; lia).
      change (2 ^ 53) with (2 ^ 13 * 2 ^ 40) in Hmd. nia.
    - destruct (float_of_int_large d Hbig)
        as (md & ed & Hf & Hmd & Hed1 & Hedu & _).
      pose proof (Hedu 1021 ltac:(lia)) as Hed2.
      rewrite Hf. exists md, ed.
      replace (ed <=? 971) with true by (symmetry; apply Z.leb_le; lia).
      split; [done|]. split; [done|]. lia. }
  rewrite Hf. cbn [mbind outcome_bind].
  destruct (float_mul_normal md mj ed ej)
    as (m' & e' & n & Hn & Hmul & He' & Hm' & _); [done..|lia|].
  rewrite Hmul.
  replace (e' <=? 971) with true by (symmetry; apply Z.leb_le; lia).
  apply int_of_float_large; lia.
Qed.

(** ** Retry delay *)

(** From [2^1024] on, the conversion of the backoff to a double raises. *)
Lemma retry_delay_overflow (jitter : float) (retry_count base_delay : Z) :
  1 ≤ retry_count → 2 ^ 1024 ≤ base_delay * 2 ^ (retry_count - 1) →
  _calculate_retry_delay jitter retry_count base_delay = Raises OverflowError.
Proof.
  intros Hrc Hd. rewrite calculate_retry_delay_int by done.
  destruct (float_of_int_large (base_delay * 2 ^ (retry_count - 1)))
    as (md & ed & Hf & _ & _ & _ & Hedl).
  { change (2 ^ 1024) with (2 ^ 53 * 2 ^ 971) in Hd.
    assert (0 < 2 ^ 971) by (apply Z.pow_pos_nonneg; lia).
    assert (0 < 2 ^ 53) by (apply Z.pow_pos_nonneg; lia). nia. }
  pose proof (Hedl 1024 ltac:(lia) Hd) as He.
  rewrite Hf.
  replace (ed <=? 971) with false by (symmetry; apply Z.leb_gt; lia). done.
Qed.

(** C8, as stated, fails: the code truncates the product to an integer
    before capping it.  With a base delay of one second the first retry
    drawn with jitter 0.9 waits [int(0.9) = 0] seconds, which is no
    product of 1 with a jitter of at least 0.75. *)
Lemma retry_delay_truncated_counterexample :
  ¬ delay_is_capped_product float_0_9 1 1.
Proof.
  intros (delay & j & Hrun & Hlo & Hhi & Heq).
  change (_calculate_retry_delay float_0_9 1 1) with (Returns 0) in Hrun.
  injection Hrun as <-.
  change (inject_Z 1 * 2 ^ (1 - 1) * j)%Q with (1 * 1 * j)%Q in Heq.
  destruct (Q.min_spec (1 * 1 * j) (inject_Z 3600)) as [[_ Hm]|[Hle _]].
  - rewrite Hm in Heq. change (inject_Z 0) with 0%Q in Heq. lra.
  - change (inject_Z 3600) with 3600%Q in Hle. lra.
Qed.

(** C8, amended: for a retry count of at least 1, a base delay of at
    least 0 whose backoff [d = base_delay * 2^(retry_count-1)] is below
    [2^1021], and a jitter that is a double between 0.75 and 1.25, the
    function returns: the delay is the product of [d] and the jitter,
    computed in doubles, truncated to an integer and then capped at 3600.
    It lies between 0 and 3600, and below the cap it is at most 1.25 times
    [d] and less than one second below 0.75 times [d]. *)
Theorem retry_delay_bounds (jitter : float) (retry_count base_delay : Z) :
  1 ≤ retry_count → 0 ≤ base_delay → is_jitter jitter →
  let d := base_delay * 2 ^ (retry_count - 1) in
  d < 2 ^ 1021 →
  ∃ delay,
    _calculate_retry_delay jitter retry_count base_delay = Returns delay ∧
    (x ← float_of_int d;
     n ← int_of_float (float_mul x jitter);
     Returns (Z.min n 3600)) = Returns delay ∧
    0 ≤ delay ≤ 3600 ∧
    (delay < 3600 → 3 * d < 4 * (delay + 1) ∧ 4 * delay ≤ 5 * d).
Proof.
  intros Hrc Hbase Hj d Hd.
  rewrite calculate_retry_delay_int by done. fold d.
  destruct (is_jitter_inv _ Hj) as (mj & ej & -> & Hmj & Hej & Hjb).
  assert (0 ≤ d) as Hd0.
  { unfold d. apply Z.mul_nonneg_nonneg; [done|]. apply Z.pow_nonneg. lia. }
  destruct (Z.eq_dec d 0) as [->|Hne].
  { exists 0. split; [reflexivity|]. split; [reflexivity|]. lia. }
  destruct (Z.lt_ge_cases d (2 ^ 13)) as [Hsmall|Hlarge].
  - destruct (jittered_small d mj ej) as (q & Hq & Hq0 & Hlo & Hhi);
      [lia|done..|].
    exists (Z.min q 3600).
    assert ((x ← float_of_int d;
             n ← int_of_float (float_mul x (S754_finite false mj ej));
             Returns (Z.min n 3600)) = Returns (Z.min q 3600)) as Hrun.
    { destruct (float_of_int d) as [x|]; [|done].
      cbn [mbind outcome_bind] in *. by rewrite Hq. }
    split; [done|]. split; [done|]. split; [lia|].
    intros Hlt. replace (Z.min q 3600) with q by lia. done.
  - destruct (jittered_large d mj ej) as (q & Hq & Hq0); [lia|done..|].
    exists 3600.
    assert ((x ← float_of_int d;
             n ← int_of_float (float_mul x (S754_finite false mj ej));
             Returns (Z.min n 3600)) = Returns 3600) as Hrun.
    { destruct (float_of_int d) as [x|]; [|done].
      cbn [mbind outcome_bind] in *. rewrite Hq.
      cbn [mbind outcome_bind]. f_equal. lia. }
    split; [done|]. split; [done|]. lia.
Qed.

Lemma retry_delay_bounds_witness :
  ∃ delay,
    _calculate_retry_delay float_0_9 3 60 = Returns delay ∧
    0 ≤ delay ≤ 3600 ∧ 3 * 240 < 4 * (delay + 1) ∧ 4 * delay ≤ 5 * 240.
Proof.
  destruct (retry_delay_bounds float_0_9 3 60)
    as (delay & Hrun & _ & Hrange & Hbelow).
  - lia.
  - lia.
  - split_and!; vm_compute; reflexivity.
  - vm_compute. reflexivity.
  - exists delay. split; [exact Hrun|]. split; [exact Hrange|].
    apply Hbelow.
    change (_calculate_retry_delay float_0_9 3 60) with (Returns 216)
      in Hrun.
    injection Hrun as <-. lia.
Defined.

(** The doubles round where exact products would not: 60 times the
    double nearest to 1.2 is exactly 72.0, and a backoff of [60 * 2^1019]
    cannot be converted. *)
Example retry_delay_samples :
  _calculate_retry_delay float_1_2 1 60 = Returns 72 ∧
  _calculate_retry_delay float_1_0 4 60 = Returns 480 ∧
  _calculate_retry_delay float_1_0 7 60 = Returns 3600 ∧
  _calculate_retry_delay float_1_0 1019 60 = Returns 3600 ∧
  _calculate_retry_delay float_1_0 1020 60 = Raises OverflowError.
Proof. split_and!; vm_compute; reflexivity. Qed.

(** ** The retry budget *)

(** With the defaults of the dataclass a job whose handler always raises
    is retried three times, after 60, 120 and 240 seconds, and is FAILED
    at the fourth attempt. *)
Example always_failing_job_lifecycle :
  ((λ j, (status j, retry_count j)) <$> get_job "job-1" (st_after_attempts 1))
    = Some (RETRYING, 1) ∧
  ((λ j, (status j, retry_count j)) <$> get_job "job-1" (st_after_attempts 2))
    = Some (RETRYING, 2) ∧
  ((λ j, (status j, retry_count j)) <$> get_job "job-1" (st_after_attempts 3))
    = Some (RETRYING, 3) ∧
  ((λ j, (status j, retry_count j, completed_at j))
     <$> get_job "job-1" (st_after_attempts 4))
    = Some (FAILED, 4, Some (utcnow (t0 + secs 600))) ∧
  zrange (retry_queue (st_after_attempts 3))
    = [("job-1", t0 + secs 300 + secs 240)] ∧
  zrange (failed_queue (st_after_attempts 4)) = [("job-1", t0 + secs 600)].
Proof. split_and!; vm_compute; reflexivity. Qed.

(** C7 fails on the code: [fail_job] computes the backoff
    [retry_delay * 2^(retry_count-1)] in full before it is capped, and its
    conversion to a double raises [OverflowError] from [2^1024] on.  A job
    allowed 1100 retries, with the default base delay of 60 seconds, whose
    handler always raises, is RETRYING with [retry_count = 1019] after
    1019 attempts.  At attempt 1020 the worker takes it from the pending
    set, the handler raises, and [fail_job] removes the id from the
    processing set and then raises, before the record is written: the
    record stays PROCESSING with [retry_count = 1019], its id is in no set,
    and no later pass of the worker changes that.  The job never becomes
    FAILED. *)
Theorem retry_overflow_strands_job :
  let handlers : gmap string handler_t :=
    {[ "social_media_post" := failing_handler ]} in
  let t := t0 + secs (3601 * 1020) in
  ((λ j, (status j, retry_count j, max_retries j, retry_delay j))
     <$> get_job "job-1" (st_long_run 1019))
    = Some (RETRYING, 1019, 1100, 60) ∧
  zrange (retry_queue (st_long_run 1019))
    = [("job-1", t0 + secs (3601 * 1019) + secs 3600)] ∧
  ((λ j, (id j, status j, retry_count j))
     <$> (dequeue t (st_long_run 1019)).1)
    = Some ("job-1", PROCESSING, 1019) ∧
  _calculate_retry_delay float_1_0 1020 60 = Raises OverflowError ∧
  (fail_job utc_timestamp "job-1" "boom" float_1_0 t
     (dequeue t (st_long_run 1019)).2).1 = Raises OverflowError ∧
  (let (job, st) := dequeue t (st_long_run 1019) in
   (λ job, (process_job utc_timestamp handlers job float_1_0 t st).1)
     <$> job) = Some (Raises OverflowError) ∧
  ((λ j, (status j, retry_count j, completed_at j))
     <$> get_job "job-1" (st_long_run 1020))
    = Some (PROCESSING, 1019, None) ∧
  get_queue_stats (st_long_run 1020) = mkQueueStats 0 0 0 0 0 0 1 ∧
  st_long_run 1500 = st_long_run 1020.
Proof.
  intros handlers t. subst handlers t. split_and!.
  - vm_compute. reflexivity.
  - vm_compute. reflexivity.
  - vm_compute. reflexivity.
  - vm_compute. reflexivity.
  - vm_compute. reflexivity.
  - vm_compute. reflexivity.
  - vm_compute. reflexivity.
  - vm_compute. reflexivity.
  - vm_compute. reflexivity.
Qed.

(** ** Order within a priority tier *)

Lemma foldl_invariant {A B} (P : A → Prop) (f : A → B → A) (l : list B) a :
  P a → (∀ a b, P a → P (f a b)) → P (foldl f a l).
Proof.
  intros Ha Hstep. revert a Ha.
  induction l as [|x l IH]; intros a Ha; simpl; eauto.
Qed.

Section promotion_facts.

Lemma zrangebyscore_empty lo hi : zrangebyscore lo hi ∅ = [].
Proof.
  unfold zrangebyscore, zrange. by rewrite map_to_list_empty.
Qed.

Lemma foldl_pending_other (f : State → string → State) (l : list string)
    (st : State) (k : string) :
  (∀ a b, b ≠ k → pending_queue (f a b) !! k = pending_queue a !! k) →
  k ∉ l →
  pending_queue (foldl f st l) !! k = pending_queue st !! k.
Proof.
  intros Hf. revert st.
  induction l as [|x l IH]; intros st Hk; simpl; [done|].
  apply not_elem_of_cons in Hk as [Hx Hl].
  rewrite IH by done. by apply Hf.
Qed.

(** Promotion rescores only the ids it finds due in the scheduled and
    retry structures. *)
Lemma move_pending_other now st k :
  scheduled_queue st !! k = None → retry_queue st !! k = None →
  pending_queue (_move_scheduled_jobs now st) !! k = pending_queue st !! k.
Proof.
  intros Hs Hr. unfold _move_scheduled_jobs. cbv zeta.
  match goal with
  | |- pending_queue (foldl ?f2 (foldl ?f1 st ?l1) ?l2) !! k = _ =>
      set (st1 := foldl f1 st l1);
      assert (retry_queue st1 = retry_queue st) as Hretry;
      [|assert (pending_queue st1 !! k = pending_queue st !! k) as Hpend]
  end.
  - subst st1.
    apply (foldl_invariant (λ a, retry_queue a = retry_queue st)); [done|].
    intros a b Ha. by destruct (get_job b a).
  - subst st1. apply foldl_pending_other.
    + intros a b Hb. destruct (get_job b a); [|done].
      simpl. unfold zadd. by rewrite lookup_insert_ne.
    + rewrite elem_of_zrangebyscore. intros (sc & Hsc & _). congruence.
  - rewrite <-Hpend. apply foldl_pending_other.
    + intros a b Hb. destruct (get_job b a); [|done].
      simpl. unfold zadd. by rewrite lookup_insert_ne.
    + rewrite Hretry, elem_of_zrangebyscore. intros (sc & Hsc & _).
      congruence.
Qed.

(** With nothing scheduled and no retry waiting, promotion does
    nothing. *)
Lemma move_nothing_waiting now st :
  scheduled_queue st = ∅ → retry_queue st = ∅ →
  _move_scheduled_jobs now st = st.
Proof.
  intros Hs Hr. unfold _move_scheduled_jobs.
  rewrite Hs, zrangebyscore_empty. simpl.
  by rewrite Hr, zrangebyscore_empty.
Qed.

(** [dequeue] pops an id other than [k1] whenever some [k2] stands
    after [k1] in the order of the pending set and neither is up for
    promotion: [k1] is still pending afterwards. *)
Lemma dequeue_leaves_lower now st k1 k2 s1 s2 :
  pending_queue st !! k1 = Some s1 → pending_queue st !! k2 = Some s2 →
  ¬ zle (k2, s2) (k1, s1) →
  scheduled_queue st !! k1 = None → retry_queue st !! k1 = None →
  scheduled_queue st !! k2 = None → retry_queue st !! k2 = None →
  pending_queue (dequeue now st).2 !! k1 = Some s1.
Proof.
  intros H1 H2 Hlt Hs1 Hr1 Hs2 Hr2. unfold dequeue.
  pose proof (move_pending_other now st k1 Hs1 Hr1) as Hm1.
  pose proof (move_pending_other now st k2 Hs2 Hr2) as Hm2.
  rewrite H1 in Hm1. rewrite H2 in Hm2.
  destruct (zpopmax _) as [[[k sc]|] rest] eqn:Hpop.
  - apply zpopmax_Some in Hpop as (Hk & -> & Hmax).
    assert (k ≠ k1) as Hne.
    { intros ->. apply Hlt. assert (sc = s1) as -> by congruence.
      by apply Hmax. }
    destruct (get_job k _); simpl; by rewrite lookup_delete_ne.
  - apply zpopmax_None in Hpop as [Hem _]. rewrite Hem in Hm1.
    by rewrite lookup_empty in Hm1.
Qed.

End promotion_facts.

Lemma zpopmax_top (m : zset) k sc :
  m !! k = Some sc →
  (∀ k' sc', m !! k' = Some sc' → k' ≠ k → ¬ zle (k, sc) (k', sc')) →
  zpopmax m = (Some (k, sc), delete k m).
Proof.
  intros Hk Htop.
  destruct (zpopmax_is_Some m k sc Hk) as (k' & sc' & Hpop).
  pose proof (zpopmax_Some _ _ _ _ Hpop) as (Hk' & _ & Hmax).
  destruct (decide (k' = k)) as [->|Hne].
  - rewrite Hpop. repeat f_equal. congruence.
  - destruct (Htop k' sc' Hk' Hne). by apply Hmax.
Qed.

Lemma zrange_singleton k sc : zrange {[k := sc]} = [(k, sc)].
Proof. unfold zrange. by rewrite map_to_list_singleton. Qed.

Lemma zpopmax_singleton k sc : zpopmax {[k := sc]} = (Some (k, sc), ∅).
Proof.
  unfold zpopmax. rewrite zrange_singleton. simpl.
  by rewrite delete_singleton_eq.
Qed.

Lemma zrangebyscore_singleton lo hi k sc :
  zrangebyscore lo hi {[k := sc]} = if in_range lo hi (k, sc) then [k] else [].
Proof.
  unfold zrangebyscore. rewrite zrange_singleton. simpl.
  by destruct (in_range lo hi (k, sc)).
Qed.

(** Of two entries, the one that stands above the other is popped. *)
Lemma zpopmax_pair k k' sc sc' :
  k ≠ k' → ¬ zle (k, sc) (k', sc') →
  zpopmax (<[k := sc]> (<[k' := sc']> ∅)) = (Some (k, sc), {[k' := sc']}).
Proof.
  intros Hne Htop.
  rewrite (zpopmax_top _ k sc).
  - by rewrite delete_insert_eq, delete_insert_ne, delete_empty, insert_empty.
  - apply lookup_insert_eq.
  - intros k0 sc0 Hk0 Hne0. rewrite lookup_insert_ne in Hk0 by done.
    apply lookup_insert_Some in Hk0 as [[<- <-]|[_ Hk0]]; [done|].
    by rewrite lookup_empty in Hk0.
Qed.

(** [dequeue] when promotion is done and the pop is known, in closed
    form. *)
Lemma dequeue_pop now st st1 k sc rest job :
  _move_scheduled_jobs now st = st1 →
  zpopmax (pending_queue st1) = (Some (k, sc), rest) →
  get_job k st1 = Some job →
  dequeue now st =
  (Some (set_started_at (Some (utcnow now)) (set_status PROCESSING job)),
   mkState
     (<[id job := set_started_at (Some (utcnow now))
                    (set_status PROCESSING job)]> (jobs st1))
     (idempotency st1) rest
     (<[k := secs (int_time now)]> (processing_queue st1))
     (completed_queue st1) (failed_queue st1) (retry_queue st1)
     (scheduled_queue st1) (rate_limits st1)).
Proof.
  intros Hmove Hpop Hjob. unfold dequeue. rewrite Hmove, Hpop.
  unfold get_job in *. unfold set_pending. fields. by rewrite Hjob.
Qed.

(** Two jobs pending after promotion, nothing scheduled and no retry
    waiting: two calls of [dequeue] hand out the one that stands above,
    then the other. *)
Lemma dequeue_two ta tb st st1 Ja Jb sa sb :
  _move_scheduled_jobs ta st = st1 →
  scheduled_queue st1 = ∅ → retry_queue st1 = ∅ →
  pending_queue st1 = <[id Ja := sa]> (<[id Jb := sb]> ∅) →
  id Ja ≠ id Jb →
  get_job (id Ja) st1 = Some Ja → get_job (id Jb) st1 = Some Jb →
  ¬ zle (id Ja, sa) (id Jb, sb) →
  ∃ st3 st4,
    dequeue ta st =
      (Some (set_started_at (Some (utcnow ta)) (set_status PROCESSING Ja)),
       st3) ∧
    dequeue tb st3 =
      (Some (set_started_at (Some (utcnow tb)) (set_status PROCESSING Jb)),
       st4) ∧
    pending_queue st3 = {[ id Jb := sb ]} ∧ pending_queue st4 = ∅.
Proof.
  intros Hmove Hs Hr Hp Hne Ha Hb Htop.
  rewrite (dequeue_pop ta st st1 (id Ja) sa {[id Jb := sb]} Ja);
    [|done|rewrite Hp; by apply zpopmax_pair|done].
  eexists _, _. split; [reflexivity|].
  erewrite dequeue_pop; cycle 1.
  { by apply move_nothing_waiting. }
  { fields. apply zpopmax_singleton. }
  { unfold get_job in *. fields.
    change (id (set_started_at _ (set_status _ Ja))) with (id Ja).
    rewrite lookup_insert_ne by done. exact Hb. }
  fields. done.
Qed.

Lemma ranks_above_not_zle J J' t t' :
  priority J = priority J' → ranks_above J t J' t' →
  ¬ zle (id J, priority_score J t) (id J', priority_score J' t').
Proof.
  intros Hp Hafter Hzle. unfold zle in Hzle. simpl in Hzle.
  unfold priority_score, secs, usec in Hzle. rewrite Hp in Hzle.
  destruct Hafter as [Hlt|[Heq Hlex]]; destruct Hzle as [Hs|[Hs Hle]];
    try lia.
  unfold String.ltb in Hlex. unfold String.leb in Hle.
  rewrite String.compare_antisym in Hle.
  by destruct (String.compare (id J') (id J)).
Qed.

(** *** Promotion *)

Lemma foldl_skip {S} (P : S → Prop) (f : S → string → S) (l : list string)
    (k : string) (a : S) :
  (∀ a b, b ≠ k → P a → P (f a b)) → k ∉ l → P a → P (foldl f a l).
Proof.
  intros Hf. revert a. induction l as [|x l IH]; intros a Hk Ha; simpl;
    [done|].
  apply not_elem_of_cons in Hk as [Hx Hl]. apply IH; [done|]. by apply Hf.
Qed.

Lemma foldl_hit {S} (P Q : S → Prop) (f : S → string → S) (l : list string)
    (k : string) (a : S) :
  (∀ a b, b ≠ k → P a → P (f a b)) →
  (∀ a, P a → Q (f a k)) →
  (∀ a b, Q a → Q (f a b)) →
  k ∈ l → P a → Q (foldl f a l).
Proof.
  intros Hskip Hhit Hdone. revert a.
  induction l as [|x l IH]; intros a Hk Ha; simpl.
  { by apply elem_of_nil in Hk. }
  destruct (decide (x = k)) as [->|Hne].
  - apply foldl_invariant; [by apply Hhit|done].
  - apply elem_of_cons in Hk as [->|Hk]; [done|].
    apply IH; [done|]. by apply Hskip.
Qed.

Lemma move_loops now st :
  _move_scheduled_jobs now st =
  let st1 :=
    foldl (promote_scheduled now) st
      (zrangebyscore 0 now (scheduled_queue st)) in
  foldl (promote_retry now) st1 (zrangebyscore 0 now (retry_queue st1)).
Proof. reflexivity. Qed.

Lemma promote_scheduled_jobs now a b :
  jobs (promote_scheduled now a b) = jobs a ∧
  retry_queue (promote_scheduled now a b) = retry_queue a.
Proof. unfold promote_scheduled. by destruct (get_job b a). Qed.

Lemma promote_scheduled_other now a b k :
  b ≠ k → entry k (promote_scheduled now a b) = entry k a.
Proof.
  intros Hb. unfold promote_scheduled, entry, get_job.
  destruct (jobs a !! b); [|done]. simpl. unfold zadd, zrem.
  by rewrite lookup_insert_ne, lookup_delete_ne.
Qed.

Lemma promote_scheduled_hit now a k j :
  get_job k a = Some j →
  entry k (promote_scheduled now a k) =
  (Some j, Some (priority_score j now), None, retry_queue a !! k).
Proof.
  intros Hj. unfold promote_scheduled, entry. rewrite Hj.
  unfold get_job in *. simpl. unfold zadd, zrem.
  by rewrite Hj, lookup_insert_eq, lookup_delete_eq.
Qed.

Lemma promote_retry_keyed now a b :
  well_keyed a → well_keyed (promote_retry now a b) ∧
  scheduled_queue (promote_retry now a b) = scheduled_queue a.
Proof.
  intros Hwk. unfold promote_retry.
  destruct (get_job b a) as [job|] eqn:Hjob; [|done].
  split; [|done]. unfold well_keyed. simpl.
  by apply map_Forall_insert_2.
Qed.

Lemma promote_retry_other now a b k :
  well_keyed a → b ≠ k → entry k (promote_retry now a b) = entry k a.
Proof.
  intros Hwk Hb. unfold promote_retry, entry.
  destruct (get_job b a) as [job|] eqn:Hjob; [|done].
  pose proof (Hwk b job Hjob) as Hid. simpl in Hid.
  unfold get_job. simpl. unfold zadd, zrem.
  rewrite Hid. by rewrite !lookup_insert_ne, lookup_delete_ne.
Qed.

Lemma promote_retry_hit now a k j :
  well_keyed a → get_job k a = Some j →
  entry k (promote_retry now a k) =
  (Some (set_status PENDING j), Some (priority_score j now),
   scheduled_queue a !! k, None).
Proof.
  intros Hwk Hj. unfold promote_retry, entry. rewrite Hj.
  pose proof (Hwk k j Hj) as Hid. simpl in Hid.
  unfold get_job. simpl. unfold zadd, zrem.
  by rewrite Hid, !lookup_insert_eq, lookup_delete_eq.
Qed.

(** After the first loop the records and the retry set are as before. *)
Lemma first_loop_keeps now st l :
  let st1 := foldl (promote_scheduled now) st l in
  jobs st1 = jobs st ∧ retry_queue st1 = retry_queue st ∧
  (well_keyed st → well_keyed st1).
Proof.
  intros st1.
  assert (jobs st1 = jobs st ∧ retry_queue st1 = retry_queue st) as [Hj Hr].
  { subst st1.
    apply (foldl_invariant
             (λ a, jobs a = jobs st ∧ retry_queue a = retry_queue st));
      [done|].
    intros a b [Ha1 Ha2]. destruct (promote_scheduled_jobs now a b).
    split; congruence. }
  split_and!; [done..|]. unfold well_keyed. by rewrite Hj.
Qed.

Lemma move_retry_due now st k j :
  well_keyed st → due now (retry_queue st) k → get_job k st = Some j →
  entry k (_move_scheduled_jobs now st) =
  (Some (set_status PENDING j), Some (priority_score j now),
   scheduled_queue (_move_scheduled_jobs now st) !! k, None).
Proof.
  intros Hwk Hdue Hj. rewrite move_loops. cbv zeta.
  set (l1 := zrangebyscore 0 now (scheduled_queue st)).
  destruct (first_loop_keeps now st l1) as (Hjobs1 & Hretry1 & Hwk1).
  set (st1 := foldl (promote_scheduled now) st l1) in *.
  rewrite Hretry1. set (l2 := zrangebyscore 0 now (retry_queue st)).
  assert (k ∈ l2) as Hin by by apply elem_of_zrangebyscore.
  apply (foldl_hit
           (λ a, well_keyed a ∧ get_job k a = Some j)
           (λ a, well_keyed a ∧
                 entry k a = (Some (set_status PENDING j),
                              Some (priority_score j now),
                              scheduled_queue a !! k, None))
           (promote_retry now) l2 k st1); [| | |done|].
  - intros a b Hb [Ha Hja]. split; [by apply promote_retry_keyed|].
    pose proof (promote_retry_other now a b k Ha Hb) as He.
    unfold entry in He. congruence.
  - intros a [Ha Hja]. split; [by apply promote_retry_keyed|].
    rewrite (promote_retry_hit now a k j Ha Hja).
    by destruct (promote_retry_keyed now a k Ha) as [_ ->].
  - intros a b [Ha He].
    destruct (promote_retry_keyed now a b Ha) as [Hwk' Hs].
    split; [done|]. rewrite Hs.
    destruct (decide (b = k)) as [->|Hb].
    + assert (get_job k a = Some (set_status PENDING j)) as Hja
        by (unfold entry in He; congruence).
      by rewrite (promote_retry_hit now a k _ Ha Hja).
    + rewrite (promote_retry_other now a b k Ha Hb).
      by rewrite He.
  - split; [by apply Hwk1|]. unfold get_job. by rewrite Hjobs1.
Qed.

Lemma move_scheduled_due now st k j :
  well_keyed st → due now (scheduled_queue st) k →
  ¬ due now (retry_queue st) k → get_job k st = Some j →
  entry k (_move_scheduled_jobs now st) =
  (Some j, Some (priority_score j now), None, retry_queue st !! k).
Proof.
  intros Hwk Hdue Hnot Hj. rewrite move_loops. cbv zeta.
  set (l1 := zrangebyscore 0 now (scheduled_queue st)).
  destruct (first_loop_keeps now st l1) as (Hjobs1 & Hretry1 & Hwk1).
  assert (entry k (foldl (promote_scheduled now) st l1) =
          (Some j, Some (priority_score j now), None, retry_queue st !! k))
    as He1.
  { assert (k ∈ l1) as Hin1 by by apply elem_of_zrangebyscore.
    apply (foldl_hit
             (λ a, jobs a = jobs st ∧ retry_queue a = retry_queue st)
             (λ a, (jobs a = jobs st ∧ retry_queue a = retry_queue st) ∧
                   entry k a = (Some j, Some (priority_score j now), None,
                                retry_queue st !! k))
             (promote_scheduled now) l1 k st); [| | |done|done].
    - intros a b _ [Ha1 Ha2]. destruct (promote_scheduled_jobs now a b).
      split; congruence.
    - intros a [Ha1 Ha2]. destruct (promote_scheduled_jobs now a k).
      split; [split; congruence|].
      rewrite (promote_scheduled_hit now a k j); [by rewrite Ha2|].
      unfold get_job in *. by rewrite Ha1.
    - intros a b [[Ha1 Ha2] He].
      destruct (promote_scheduled_jobs now a b).
      split; [split; congruence|].
      destruct (decide (b = k)) as [->|Hb].
      + rewrite (promote_scheduled_hit now a k j); [by rewrite Ha2|].
        unfold get_job in *. by rewrite Ha1.
      + by rewrite (promote_scheduled_other now a b k Hb). }
  set (st1 := foldl (promote_scheduled now) st l1) in *.
  rewrite Hretry1. set (l2 := zrangebyscore 0 now (retry_queue st)).
  assert (k ∉ l2) as Hin2 by (unfold l2; by rewrite elem_of_zrangebyscore).
  rewrite <-He1.
  apply (foldl_skip (λ a, well_keyed a ∧ entry k a = entry k st1)
           (promote_retry now) l2 k st1); [|done|by split; [apply Hwk1|]].
  intros a b Hb [Ha He]. split; [by apply promote_retry_keyed|].
  by rewrite (promote_retry_other now a b k Ha Hb).
Qed.

Lemma move_untouched now st k :
  well_keyed st →
  get_job k st = None ∨
  (¬ due now (scheduled_queue st) k ∧ ¬ due now (retry_queue st) k) →
  entry k (_move_scheduled_jobs now st) = entry k st.
Proof.
  intros Hwk Hquiet. rewrite move_loops. cbv zeta.
  set (l1 := zrangebyscore 0 now (scheduled_queue st)).
  destruct (first_loop_keeps now st l1) as (Hjobs1 & Hretry1 & Hwk1).
  set (st1 := foldl (promote_scheduled now) st l1) in *.
  rewrite Hretry1. set (l2 := zrangebyscore 0 now (retry_queue st)).
  destruct Hquiet as [Hnone|[Hs Hr]].
  - apply (foldl_invariant
             (λ a, well_keyed a ∧ get_job k a = None ∧
                   entry k a = entry k st)).
    + split; [by apply Hwk1|]. subst st1.
      apply (foldl_invariant
               (λ a, get_job k a = None ∧ entry k a = entry k st));
        [done|].
      intros a b [Ha He].
      destruct (promote_scheduled_jobs now a b) as [Hj _].
      split; [unfold get_job in *; congruence|].
      destruct (decide (b = k)) as [->|Hb];
        [|by rewrite (promote_scheduled_other now a b k Hb)].
      unfold promote_scheduled. by rewrite Ha.
    + intros a b (Ha & Hja & He).
      split; [by apply promote_retry_keyed|].
      destruct (decide (b = k)) as [->|Hb].
      * unfold promote_retry. by rewrite Hja.
      * pose proof (promote_retry_other now a b k Ha Hb) as He'.
        split; [unfold entry in He'; congruence|congruence].
  - assert (k ∉ l1) as Hin1 by (unfold l1; by rewrite elem_of_zrangebyscore).
    assert (k ∉ l2) as Hin2 by (unfold l2; by rewrite elem_of_zrangebyscore).
    apply (foldl_skip (λ a, well_keyed a ∧ entry k a = entry k st)
             (promote_retry now) l2 k st1); [|done|].
    + intros a b Hb [Ha He]. split; [by apply promote_retry_keyed|].
      by rewrite (promote_retry_other now a b k Ha Hb).
    + split; [by apply Hwk1|]. subst st1.
      apply (foldl_skip (λ a, entry k a = entry k st)
               (promote_scheduled now) l1 k st); [|done|done].
      intros a b Hb He. by rewrite (promote_scheduled_other now a b k Hb).
Qed.

Lemma due_dec now (m : zset) k : due now m k ∨ ¬ due now m k.
Proof.
  unfold due. destruct (m !! k) as [sc|] eqn:E.
  - destruct (decide (0 ≤ sc ≤ now)); [left; eauto|right].
    intros (sc' & [= <-] & ?). done.
  - right. intros (sc' & [=] & _).
Qed.

(** C9, as stated, fails: the score counts whole seconds.  Two NORMAL
    jobs enqueued 0.3 seconds apart within one second have the same
    score, and [dequeue] returns the first of them, whose id is the
    greater one. *)
Lemma same_second_counterexample :
  ¬ lifo_within_tier utc_timestamp
      (demo_job t0 "job-b" 1 NORMAL)
      (demo_job (t0 + 300000) "job-a" 2 NORMAL)
      t0 (t0 + 300000) (t0 + secs 1).
Proof.
  intros H. unfold lifo_within_tier in H.
  assert (t0 ≤ t0 + 300000) as H12 by (vm_compute; discriminate).
  assert (t0 + 300000 ≤ t0 + secs 1) as H23 by (vm_compute; discriminate).
  specialize (H eq_refl H12 H23).
  lazymatch type of H with
  | ?A → ?B → _ =>
      assert A as HA by (vm_compute; eexists; reflexivity);
      assert B as HB by (vm_compute; eexists; reflexivity)
  end.
  specialize (H HA HB). vm_compute in H. discriminate.
Qed.

Section tie_break.

Variable timestamp : Z → Z.

(** C9, amended: the pending score of a job is its priority times 1000
    plus the whole seconds of the clock at the moment the job enters the
    pending set, whether [enqueue] inserts it there (a due job) or the
    promotion step of [dequeue] moves it there from the scheduled or the
    retry set.  Of two jobs of one priority in the pending set, the one
    that entered in a later whole second stands above the other, and of
    two that entered in the same second the one with the greater id
    does, whichever entered first: no [dequeue] returns the lower one
    while the upper one is pending.  On a queue that holds only two such
    jobs (both enqueued due, or the first enqueued due and the second
    enqueued for later and promoted by the first [dequeue]) the first
    [dequeue] returns the upper one and the second returns the other. *)
Theorem lifo_by_clock_second :
  (∀ J t wall st,
     (∀ e, idempotency st !! idempotency_key J = Some e → e = "") →
     scheduled_at J = Naive wall → wall ≤ t →
     ∃ st', enqueue timestamp J t st = (Returns (id J), st') ∧
       pending_queue st' !! id J = Some (priority_score J t)) ∧
  (∀ J k t st, well_keyed st → get_job k st = Some J →
     let st' := _move_scheduled_jobs t st in
     (due t (retry_queue st) k →
      entry k st' =
        (Some (set_status PENDING J), Some (priority_score J t),
         scheduled_queue st' !! k, None)) ∧
     (due t (scheduled_queue st) k → ¬ due t (retry_queue st) k →
      entry k st' =
        (Some J, Some (priority_score J t), None, retry_queue st !! k)) ∧
     (due t (scheduled_queue st) k ∨ due t (retry_queue st) k →
      pending_queue st' !! k = Some (priority_score J t))) ∧
  (∀ J J' t t' t3 st,
     priority J = priority J' →
     pending_queue st !! id J = Some (priority_score J t) →
     pending_queue st !! id J' = Some (priority_score J' t') →
     scheduled_queue st !! id J = None → retry_queue st !! id J = None →
     scheduled_queue st !! id J' = None → retry_queue st !! id J' = None →
     ranks_above J t J' t' →
     pending_queue (dequeue t3 st).2 !! id J'
       = Some (priority_score J' t')) ∧
  (∀ J1 J2 t1 t2 w1 w2 t3 t4,
     priority J1 = priority J2 → id J1 ≠ id J2 →
     idempotency_key J1 ≠ idempotency_key J2 →
     scheduled_at J1 = Naive w1 → w1 ≤ t1 →
     scheduled_at J2 = Naive w2 → w2 ≤ t2 →
     let st2 :=
       (enqueue timestamp J2 t2
          (enqueue timestamp J1 t1 empty_state).2).2 in
     let handed J t :=
       Some (set_started_at (Some (utcnow t)) (set_status PROCESSING J)) in
     (ranks_above J2 t2 J1 t1 →
      ∃ st3 st4, dequeue t3 st2 = (handed J2 t3, st3) ∧
                 dequeue t4 st3 = (handed J1 t4, st4)) ∧
     (ranks_above J1 t1 J2 t2 →
      ∃ st3 st4, dequeue t3 st2 = (handed J1 t3, st3) ∧
                 dequeue t4 st3 = (handed J2 t4, st4))) ∧
  (∀ J1 J2 t1 t2 w1 w2 t3 t4,
     priority J1 = priority J2 → id J1 ≠ id J2 →
     idempotency_key J1 ≠ idempotency_key J2 →
     scheduled_at J1 = Naive w1 → w1 ≤ t1 →
     scheduled_at J2 = Naive w2 → t2 < w2 →
     0 ≤ timestamp w2 ≤ t3 →
     let st2 :=
       (enqueue timestamp J2 t2
          (enqueue timestamp J1 t1 empty_state).2).2 in
     let handed J t :=
       Some (set_started_at (Some (utcnow t)) (set_status PROCESSING J)) in
     pending_queue st2 = {[ id J1 := priority_score J1 t1 ]} ∧
     scheduled_queue st2 = {[ id J2 := timestamp w2 ]} ∧
     (ranks_above J2 t3 J1 t1 →
      ∃ st3 st4, dequeue t3 st2 = (handed J2 t3, st3) ∧
                 dequeue t4 st3 = (handed J1 t4, st4)) ∧
     (ranks_above J1 t1 J2 t3 →
      ∃ st3 st4, dequeue t3 st2 = (handed J1 t3, st3) ∧
                 dequeue t4 st3 = (handed J2 t4, st4))).
Proof.
  split_and!.
  - intros J t wall st Hk Hs Hdue.
    rewrite (enqueue_fresh_naive timestamp J t wall st Hk Hs).
    eexists. split; [reflexivity|]. fields.
    replace (wall <=? t) with true by lia. apply lookup_insert_eq.
  - intros J k t st Hwk HJ st'. subst st'. split_and!.
    + intros Hdue. by apply move_retry_due.
    + intros Hdue Hnot. by apply move_scheduled_due.
    + intros Hdue. destruct (due_dec t (retry_queue st) k) as [Hr|Hnr].
      * pose proof (move_retry_due t st k J Hwk Hr HJ) as He.
        unfold entry in He. congruence.
      * destruct Hdue as [Hs|Hr]; [|done].
        pose proof (move_scheduled_due t st k J Hwk Hs Hnr HJ) as He.
        unfold entry in He. congruence.
  - intros J J' t t' t3 st Hprio HJ HJ' Hs Hr Hs' Hr' Hrank.
    apply (dequeue_leaves_lower t3 st (id J') (id J) _
             (priority_score J t)); try done.
    by apply ranks_above_not_zle.
  - intros J1 J2 t1 t2 w1 w2 t3 t4 Hprio Hid Hkey Hs1 Hd1 Hs2 Hd2 st2 handed.
    subst st2 handed.
    rewrite (enqueue_fresh_naive timestamp J1 t1 w1 empty_state);
      [|by intros e; fields; rewrite lookup_empty|done].
    fields.
    rewrite (enqueue_fresh_naive timestamp J2 t2 w2);
      [|by intros e; fields; rewrite lookup_insert_ne, lookup_empty|done].
    fields.
    replace (w1 <=? t1) with true by lia.
    replace (w2 <=? t2) with true by lia. unfold zadd.
    split; intros Hrank.
    + match goal with
      | |- context [dequeue t3 ?s] =>
          destruct (dequeue_two t3 t4 s s J2 J1 (priority_score J2 t2)
                      (priority_score J1 t1))
            as (st3 & st4 & H3 & H4 & _)
      end;
        [by apply move_nothing_waiting|reflexivity|reflexivity|reflexivity
        |congruence
        |unfold get_job; fields; apply lookup_insert_eq
        |unfold get_job; fields; rewrite lookup_insert_ne by congruence;
         apply lookup_insert_eq
        |by apply ranks_above_not_zle
        |eauto].
    + match goal with
      | |- context [dequeue t3 ?s] =>
          destruct (dequeue_two t3 t4 s s J1 J2 (priority_score J1 t1)
                      (priority_score J2 t2))
            as (st3 & st4 & H3 & H4 & _)
      end;
        [by apply move_nothing_waiting|reflexivity|reflexivity
        |fields; apply insert_insert_ne; congruence
        |congruence
        |unfold get_job; fields; rewrite lookup_insert_ne by congruence;
         apply lookup_insert_eq
        |unfold get_job; fields; apply lookup_insert_eq
        |by apply ranks_above_not_zle
        |eauto].
  - intros J1 J2 t1 t2 w1 w2 t3 t4 Hprio Hid Hkey Hs1 Hd1 Hs2 Hd2 Hdue
      st2 handed.
    subst st2 handed.
    rewrite (enqueue_fresh_naive timestamp J1 t1 w1 empty_state);
      [|by intros e; fields; rewrite lookup_empty|done].
    fields.
    rewrite (enqueue_fresh_naive timestamp J2 t2 w2);
      [|by intros e; fields; rewrite lookup_insert_ne, lookup_empty|done].
    fields.
    replace (w1 <=? t1) with true by lia.
    replace (w2 <=? t2) with false by lia. unfold zadd.
    rewrite !insert_empty.
    split; [done|]. split; [done|].
    assert (in_range 0 t3 (id J2, timestamp w2) = true) as Hin.
    { unfold in_range. simpl. lia. }
    match goal with
    | |- context [dequeue t3 ?s] =>
        assert (_move_scheduled_jobs t3 s =
                mkState (jobs s) (idempotency s)
                  (<[id J2 := priority_score J2 t3]>
                     (<[id J1 := priority_score J1 t1]> ∅))
                  ∅ ∅ ∅ ∅ ∅ ∅) as Hmove
    end.
    { unfold _move_scheduled_jobs. fields.
      rewrite zrangebyscore_singleton, Hin. simpl foldl.
      unfold get_job. fields. rewrite lookup_insert_eq.
      unfold set_scheduled, set_pending, zadd, zrem. fields.
      rewrite delete_singleton_eq, zrangebyscore_empty.
      simpl foldl. by rewrite insert_empty. }
    split; intros Hrank.
    + match goal with
      | |- context [dequeue t3 ?s] =>
          destruct (dequeue_two t3 t4 s _ J2 J1 (priority_score J2 t3)
                      (priority_score J1 t1) Hmove)
            as (st3 & st4 & H3 & H4 & _)
      end;
        [reflexivity|reflexivity|reflexivity
        |congruence
        |unfold get_job; fields; apply lookup_insert_eq
        |unfold get_job; fields; rewrite lookup_insert_ne by congruence;
         apply lookup_insert_eq
        |by apply ranks_above_not_zle
        |eauto].
    + match goal with
      | |- context [dequeue t3 ?s] =>
          destruct (dequeue_two t3 t4 s _ J1 J2 (priority_score J1 t1)
                      (priority_score J2 t3) Hmove)
            as (st3 & st4 & H3 & H4 & _)
      end;
        [reflexivity|reflexivity
        |fields; apply insert_insert_ne; congruence
        |congruence
        |unfold get_job; fields; rewrite lookup_insert_ne by congruence;
         apply lookup_insert_eq
        |unfold get_job; fields; apply lookup_insert_eq
        |by apply ranks_above_not_zle
        |eauto].
Qed.

End tie_break.

Lemma lifo_by_clock_second_witness :
  let J1 := demo_job t0 "job-b" 1 NORMAL in
  let J2 :=
    demo_scheduled_job (t0 + secs 1) "job-a" 2 (Naive (t0 + secs 30)) in
  let st2 :=
    (enqueue utc_timestamp J2 (t0 + secs 1)
       (enqueue utc_timestamp J1 t0 empty_state).2).2 in
  scheduled_queue st2 = {[ "job-a" := t0 + secs 30 ]} ∧
  ∃ st3 st4,
    dequeue (t0 + secs 31) st2
    = (Some (set_started_at (Some (utcnow (t0 + secs 31)))
               (set_status PROCESSING J2)), st3) ∧
    dequeue (t0 + secs 32) st3
    = (Some (set_started_at (Some (utcnow (t0 + secs 32)))
               (set_status PROCESSING J1)), st4).
Proof.
  intros J1 J2 st2.
  destruct (lifo_by_clock_second utc_timestamp) as (_ & _ & _ & _ & H).
  destruct (H J1 J2 t0 (t0 + secs 1) t0 (t0 + secs 30) (t0 + secs 31)
              (t0 + secs 32)) as (_ & Hsch & Hfirst & _).
  - reflexivity.
  - vm_compute. discriminate.
  - vm_compute. discriminate.
  - reflexivity.
  - lia.
  - reflexivity.
  - vm_compute. reflexivity.
  - vm_compute. split; discriminate.
  - split; [exact Hsch|]. apply Hfirst. left. vm_compute. reflexivity.
Defined.

